(** * ForenSight: the case-analysis pipeline

    A shallow embedding of the backend services that make up the analysis
    pipeline (evidenceService, frameExtractionService, geminiClient,
    nanoBananaService, analysisOrchestrator and the SQLite tables they use),
    followed by the properties of the pipeline.

    Conventions of the embedding.
    - Asynchronous code is sequential in the source (every call is awaited),
      so a promise is modelled by its outcome: a value or a thrown error.
    - The database, the emitted progress events, the uuid supply and a
      logical clock are threaded through a state-and-exception monad.  State
      changes made before a [throw] survive it, as in the source.
    - External collaborators (file system, ffmpeg, the Gemini API) are an
      oracle [Env].  API calls take the logical clock, so two calls with the
      same arguments may answer differently.
    - [uuidv4 ()] is modelled as a supply that never hands out the same
      identifier twice.
    - JavaScript numbers are modelled by exact rationals (with the two
      infinities and NaN where the source can produce them); rounding of
      doubles is not modelled.
    - A parsed reply has the field types of its interface, except where
      [run] maps over one of its arrays: there the value may be something
      else than an array and an element may be [null], and either makes
      [run] throw a [TypeError].
    - Console logging and the [setTimeout] delays are omitted; emoji glyphs
      are left out of display strings. *)

From Stdlib Require Import String Ascii List Bool Arith PeanoNat ZArith QArith Qround Lia.
From Stdlib Require Import Sorted DecimalString DecimalNat.
Import ListNotations.

Open Scope string_scope.
Open Scope list_scope.
Open Scope nat_scope.

Infix "^^" := String.append (at level 60, right associativity).

(* ================================================================== *)
(** ** JavaScript string helpers *)

Module Js.

(** [String(n)] for a non-negative integer. *)
Definition showNat (n : nat) : string :=
  NilZero.string_of_uint (Nat.to_uint n).

(** [hay.startsWith(needle)] *)
Definition startsWith (hay needle : string) : bool := String.prefix needle hay.

(** [hay.includes(needle)] *)
Fixpoint includes (hay needle : string) : bool :=
  if String.prefix needle hay then true
  else match hay with
       | EmptyString => false
       | String _ rest => includes rest needle
       end.

(** [s.substring(0, n)] *)
Definition take (n : nat) (s : string) : string := String.substring 0 n s.

(** [s.slice(1)] *)
Definition slice1 (s : string) : string :=
  match s with
  | EmptyString => EmptyString
  | String _ rest => rest
  end.

Definition isSpace (c : ascii) : bool :=
  let n := nat_of_ascii c in
  (n =? 32) || ((9 <=? n) && (n <=? 13)).

(** [s.trim().length === 0] *)
Fixpoint isBlank (s : string) : bool :=
  match s with
  | EmptyString => true
  | String c rest => isSpace c && isBlank rest
  end.

(** [xs.join(sep)] *)
Definition join (sep : string) (xs : list string) : string := String.concat sep xs.

(** Truthiness of an optional string: [undefined] and [""] are falsy. *)
Definition truthy (o : option string) : bool :=
  match o with
  | Some (String _ _) => true
  | _ => false
  end.

(** [o || d] on strings. *)
Definition orElse (o : option string) (d : string) : string :=
  match o with
  | Some (String c r) => String c r
  | _ => d
  end.

(** [o || []] on arrays: every array, even the empty one, is truthy. *)
Definition orEmpty {A : Type} (o : option (list A)) : list A :=
  match o with
  | Some l => l
  | None => []
  end.

(** [path.join(a, b)], without normalisation of dot segments. *)
Definition pathJoin (a b : string) : string := a ^^ "/" ^^ b.

End Js.

(* ================================================================== *)
(** ** Data model (models/schemas.ts, shared/types.ts) *)

Inductive EvidenceType := Image | Video | Audio | Text | Document.

Definition EvidenceType_eqb (a b : EvidenceType) : bool :=
  match a, b with
  | Image, Image | Video, Video | Audio, Audio | Text, Text
  | Document, Document => true
  | _, _ => false
  end.

Definition showType (t : EvidenceType) : string :=
  match t with
  | Image => "image" | Video => "video" | Audio => "audio"
  | Text => "text" | Document => "document"
  end.

Inductive CaseStatus := Pending | Running | Completed | Errored.

(** The [derived] object of an evidence item.  Every field is optional: the
    row is created with [{}] and the processor adds fields with an object
    spread over the previous value. *)
Record Derived := mkDerived {
  summary : option string;
  tags : option (list string);
  transcript : option string;
  frameIds : option (list string);
  frameCount : option nat;
  analyzedFrameCount : option nat;
  fullText : option string;
  charCount : option nat;
  truncated : option bool;
  error : option string
}.

Definition emptyDerived : Derived :=
  mkDerived None None None None None None None None None None.

Record EvidenceItem := mkEvidence {
  ev_id : string;
  ev_caseId : string;
  ev_type : EvidenceType;
  originalFilename : string;
  storageUrl : string;
  uploadedAt : string;
  derived : option Derived
}.

Record FrameDerived := mkFrameDerived {
  fd_summary : string;
  fd_tags : list string
}.

Record FrameEvidence := mkFrame {
  fr_id : string;
  parentEvidenceId : string;
  timeSeconds : nat;
  fr_storageUrl : string;
  fr_derived : option FrameDerived
}.

(** [e.derived?.summary] and friends. *)
Definition derivedSummary (e : EvidenceItem) : option string :=
  match derived e with Some d => summary d | None => None end.
Definition derivedTags (e : EvidenceItem) : option (list string) :=
  match derived e with Some d => tags d | None => None end.
Definition derivedTranscript (e : EvidenceItem) : option string :=
  match derived e with Some d => transcript d | None => None end.

(** [...evidence.derived]: spreading [undefined] adds nothing. *)
Definition spreadDerived (e : EvidenceItem) : Derived :=
  match derived e with Some d => d | None => emptyDerived end.

(* ================================================================== *)
(** ** Key-frame selection (EvidenceService.selectKeyFrames) *)

(** The [for (let i = step; i < frames.length - 1; i += step)] loop.  [fuel]
    bounds the number of iterations; [keyFrameLoop_fuel] below shows that
    [length frames] iterations are always enough when [step >= 1]. *)
Fixpoint keyFrameLoop (fuel : nat) (frames : list FrameEvidence)
    (step maxFrames i : nat) (result : list FrameEvidence) : list FrameEvidence :=
  match fuel with
  | O => result
  | S fuel' =>
      if i <? length frames - 1 then
        let result' :=
          if length result <? maxFrames - 1 then
            match nth_error frames i with
            | Some f => result ++ [f]
            | None => result
            end
          else result in
        keyFrameLoop fuel' frames step maxFrames (i + step) result'
      else result
  end.

Definition selectKeyFrames (frames : list FrameEvidence) (maxFrames : nat)
    : list FrameEvidence :=
  if length frames <=? maxFrames then frames
  else
    match frames with
    | [] => []
    | first :: _ =>
        let step := length frames / maxFrames in
        let result := [first] in
        let result := keyFrameLoop (length frames) frames step maxFrames step result in
        if 1 <? length frames then result ++ [last frames first] else result
    end.

(** The choice made in [processEvidence]: long videos are down-sampled. *)
Definition framesToAnalyze (frames : list FrameEvidence) : list FrameEvidence :=
  if 30 <? length frames then selectKeyFrames frames 15 else frames.

(** Frames are strictly ordered by [timeSeconds]. *)
Definition earlier (a b : FrameEvidence) : Prop := timeSeconds a < timeSeconds b.

Definition framesIncreasing (l : list FrameEvidence) : Prop :=
  StronglySorted earlier l.

(* ================================================================== *)
(** ** JavaScript numbers in the heatmap computation *)

Module JsNum.

(** A number is a rational, an infinity or NaN.  [Math.max()] of no
    arguments is [-Infinity], which the arithmetic below propagates. *)
Inductive num := Fin (q : Q) | PosInf | NegInf | NaN.

(** [a || b] on numbers: [undefined] and [0] are falsy. *)
Definition orNum (a : option Q) (b : Q) : Q :=
  match a with
  | Some q => if Qeq_bool q 0 then b else q
  | None => b
  end.

Definition qmax (a b : Q) : Q := if Qle_bool a b then b else a.

(** [Math.max(...xs)] *)
Definition max (xs : list Q) : num :=
  match xs with
  | [] => NegInf
  | x :: rest => Fin (fold_left qmax rest x)
  end.

(** [x / n] for a positive integer literal [n]. *)
Definition divNat (x : num) (n : nat) : num :=
  match x with
  | Fin q => Fin (q / inject_Z (Z.of_nat n))
  | other => other
  end.

(** [i * x] for a non-negative integer [i]: [0 * Infinity] is NaN. *)
Definition mulNat (i : nat) (x : num) : num :=
  match x with
  | Fin q => Fin (inject_Z (Z.of_nat i) * q)
  | NaN => NaN
  | inf => match i with O => NaN | S _ => inf end
  end.

(** [q >= x] and [q < x]; every comparison with NaN is false. *)
Definition geb (q : Q) (x : num) : bool :=
  match x with
  | Fin r => Qle_bool r q
  | NegInf => true
  | PosInf | NaN => false
  end.

Definition ltb (q : Q) (x : num) : bool :=
  match x with
  | Fin r => negb (Qle_bool r q)
  | PosInf => true
  | NegInf | NaN => false
  end.

End JsNum.

(* ================================================================== *)
(** ** Analysis entities *)

Inductive Severity := Low | Medium | High.

Inductive ReconType := MostLikely | Alternative | Before | After.

Record TimelineEvent := mkTimelineEvent {
  te_id : string;
  te_caseId : string;
  label : string;
  description : string;
  startTime : option Q;
  endTime : option Q;
  confidence : Q;
  supportingEvidenceIds : list string
}.

Record Contradiction := mkContradiction {
  co_id : string;
  co_caseId : string;
  co_description : string;
  involvedEvidenceIds : list string;
  involvedWitnesses : list string;
  severity : Severity
}.

Record Scenario := mkScenario {
  sc_id : string;
  sc_caseId : string;
  name : string;
  likelihood : Q;
  narrative : string;
  sc_supportingEvidenceIds : list string;
  conflictingEvidenceIds : list string;
  reconstructionImageIds : list string;
  sc_reasoning : string;
  keyFindings : list string;
  supportingEvidence : list string;
  conflictingEvidence : list string
}.

Record ReconstructionImage := mkRecon {
  ri_id : string;
  ri_caseId : string;
  scenarioId : option string;
  viewpoint : string;
  ri_type : ReconType;
  ri_storageUrl : string;
  ri_description : string
}.

Record HeatmapSegment := mkSegment {
  hs_startTime : JsNum.num;
  hs_endTime : JsNum.num;
  hs_confidence : Q;
  contradictionScore : Q
}.

Record EvidenceSummary := mkEvidenceSummary {
  es_evidence : EvidenceItem;
  es_summary : string;
  es_tags : list string
}.

Record EvidenceSummaryEntry := mkSummaryEntry {
  evidenceId : string;
  ese_summary : string;
  ese_tags : list string;
  processed : bool
}.

Record AnalysisReasoning := mkReasoning {
  r_fusion : string;
  r_contradictions : string;
  r_scenarios : string
}.

Record CaseAnalysis := mkCaseAnalysis {
  ca_caseId : string;
  ca_status : CaseStatus;
  timeline : list TimelineEvent;
  contradictions : list Contradiction;
  scenarios : list Scenario;
  missingEvidenceSuggestions : list string;
  globalSummary : string;
  heatmap_segments : list HeatmapSegment;
  ca_reasoning : AnalysisReasoning;
  evidenceSummaries : list EvidenceSummaryEntry;
  reconstructions : list ReconstructionImage
}.

Inductive ProgressStatus := StRunning | StCompleted | StError.

Record AnalysisProgress := mkProgress {
  pr_step : string;
  progress : Z;
  pr_reasoning : string;
  currentItem : option string;
  status : ProgressStatus;
  stepNumber : option nat;
  totalSteps : option nat
}.

(* ================================================================== *)
(** ** Heatmap (the [Build heatmap segments] block of [run]) *)

Definition segmentCount : nat := 10.

Definition eventStart (t : TimelineEvent) : Q := JsNum.orNum (startTime t) 0.

Definition heatmapSegments (timeline : list TimelineEvent)
    (contradictions : list Contradiction) : list HeatmapSegment :=
  let maxTime :=
    JsNum.max (map (fun t => JsNum.orNum (endTime t) (JsNum.orNum (startTime t) 0))
                   timeline) in
  let segmentDuration := JsNum.divNat maxTime segmentCount in
  map (fun i =>
         let startTime := JsNum.mulNat i segmentDuration in
         let endTime := JsNum.mulNat (i + 1) segmentDuration in
         let eventsInSegment :=
           filter (fun t => JsNum.geb (eventStart t) startTime
                            && JsNum.ltb (eventStart t) endTime) timeline in
         let contradictionsInSegment := filter (fun _ => true) contradictions in
         mkSegment startTime endTime
           (if 0 <? length eventsInSegment
            then fold_left (fun sum e => (sum + confidence e)%Q) eventsInSegment 0%Q
                 / inject_Z (Z.of_nat (length eventsInSegment))
            else 5 # 10)
           (inject_Z (Z.of_nat (length contradictionsInSegment)) * (2 # 10)))
      (seq 0 segmentCount).

(* ================================================================== *)
(** ** The database (db/database.ts) *)

Record CaseRow := mkCaseRow {
  c_id : string;
  c_status : CaseStatus
}.

Record AnalysisRow := mkAnalysisRow {
  ar_caseId : string;
  ar_analysis : CaseAnalysis
}.

(** One list of rows per table.  [evidence_items] is kept in the order of
    the [ORDER BY uploadedAt DESC] query. *)
Record Store := mkStore {
  cases : list CaseRow;
  evidence_items : list EvidenceItem;
  frame_evidence : list FrameEvidence;
  case_analysis : list AnalysisRow
}.

(* ================================================================== *)
(** ** Replies of the Gemini API *)

(** What a [generateContent] call followed by the JSON extraction comes to:
    the call rejects, the text holds no [{...}] block, [JSON.parse] throws on
    the block, or it yields an object. *)
Inductive Reply (P : Type) :=
  | CallFails (msg : string)
  | NoJson (text : string)
  | BadJson (text : string) (msg : string)
  | Json (text : string) (parsed : P).

Arguments CallFails {P} msg.
Arguments NoJson {P} text.
Arguments BadJson {P} text msg.
Arguments Json {P} text parsed.

(** A truthy value found where the code expects an array of objects.  It is
    an array, whose elements are objects or [null], or it is anything
    else: [JSON.parse] checks none of it. *)
Inductive Arrayish (A : Type) :=
  | Elements (items : list (option A))
  | NotArray.

Arguments Elements {A} items.
Arguments NotArray {A}.

(** [v || []] *)
Definition orNoElements {A : Type} (o : option (Arrayish A)) : Arrayish A :=
  match o with
  | Some v => v
  | None => Elements []
  end.

Record SummaryJson := mkSummaryJson {
  sj_summary : option string;
  sj_tags : option (list string);
  sj_timeHint : option string;
  sj_reasoning : option string
}.

Record GeminiSummary := mkGeminiSummary {
  gs_summary : string;
  gs_tags : list string;
  timeHint : option string;
  gs_reasoning : string
}.

Record FusionEvent := mkFusionEvent {
  fe_label : string;
  fe_description : string;
  fe_startTime : option Q;
  fe_endTime : option Q;
  fe_confidence : Q;
  fe_supportingEvidenceIds : list string
}.

(** [fj_timeline] is [None] when [parsed.timeline] is missing or not an
    array; an element of the array is [None] when it is [null]. *)
Record FusionJson := mkFusionJson {
  fj_timeline : option (list (option FusionEvent));
  fj_worldModel : option string;
  fj_reasoning : option string
}.

Record GeminiFusionResult := mkFusionResult {
  fr_timeline : list (option FusionEvent);
  worldModel : string;
  fr_reasoning : option string
}.

Record ContradictionItem := mkContradictionItem {
  ci_description : string;
  ci_involvedEvidenceIds : list string;
  ci_involvedWitnesses : list string;
  ci_severity : Severity
}.

(** [cj_contradictions] is [None] when [parsed.contradictions] is missing
    or falsy. *)
Record ContradictionJson := mkContradictionJson {
  cj_contradictions : option (Arrayish ContradictionItem);
  cj_reasoning : option string
}.

Record GeminiContradictionResult := mkContradictionResult {
  cr_contradictions : Arrayish ContradictionItem;
  cr_reasoning : option string
}.

Record ScenarioItem := mkScenarioItem {
  si_name : string;
  si_likelihood : Q;
  si_narrative : string;
  si_supportingEvidenceIds : list string;
  si_conflictingEvidenceIds : list string;
  si_keyFindings : option (list string);
  si_supportingEvidence : option (list string);
  si_conflictingEvidence : option (list string);
  scenarioReasoning : option string
}.

(** [sj_scenarios] is [None] when [parsed.scenarios] is missing or falsy. *)
Record ScenarioJson := mkScenarioJson {
  sj_scenarios : option (Arrayish ScenarioItem);
  sjs_reasoning : option string
}.

Record GeminiScenarioResult := mkScenarioResult {
  sr_scenarios : Arrayish ScenarioItem;
  sr_reasoning : option string
}.

(** How an image request ends: an image from the first model, an image from
    the fallback model, or the placeholder. *)
Inductive ImageOutcome :=
  | Generated4K (ext : string)
  | GeneratedFlash (ext : string)
  | Placeholder.

(* ================================================================== *)
(** ** The monad of the pipeline *)

Inductive result (A : Type) :=
  | Ok (a : A)
  | Throw (message : string).

Arguments Ok {A} a.
Arguments Throw {A} message.

(** The stage-level model calls, recorded with their arguments. *)
Inductive ModelCall :=
  | FuseCall (evidenceSummaries : list EvidenceSummary)
  | DetectCall (timeline : list TimelineEvent)
               (evidenceSummaries : list EvidenceSummary)
               (witnessStatements : list string)
  | ScenarioCall (worldModel : string) (timeline : list TimelineEvent)
                 (contradictions : list Contradiction).

Record State := mkState {
  db : Store;
  emitted : list AnalysisProgress;
  nextUuid : nat;
  clock : nat;
  calls : list ModelCall
}.

Definition M (A : Type) : Type := State -> result A * State.

Definition ret {A} (a : A) : M A := fun s => (Ok a, s).

Definition bind {A B} (m : M A) (k : A -> M B) : M B :=
  fun s => match m s with
           | (Ok a, s') => k a s'
           | (Throw e, s') => (Throw e, s')
           end.

Definition throw {A} (message : string) : M A := fun s => (Throw message, s).

(** [try { body } catch (error) { handler }] *)
Definition tryCatch {A} (body : M A) (handler : string -> M A) : M A :=
  fun s => match body s with
           | (Ok a, s') => (Ok a, s')
           | (Throw e, s') => handler e s'
           end.

(** Awaiting a promise that is already settled. *)
Definition await {A} (r : result A) : M A := fun s => (r, s).

Notation "x <- m ;; k" := (bind m (fun x => k))
  (at level 61, m at next level, right associativity).
Notation "m ;;; k" := (bind m (fun _ => k))
  (at level 61, right associativity).

Fixpoint forEach {A} (l : list A) (body : A -> M unit) : M unit :=
  match l with
  | [] => ret tt
  | x :: rest => body x ;;; forEach rest body
  end.

Fixpoint mapM {A B} (f : A -> M B) (l : list A) : M (list B) :=
  match l with
  | [] => ret []
  | x :: rest => y <- f x ;; ys <- mapM f rest ;; ret (y :: ys)
  end.

(** [l.forEach((x, index) => ...)] collecting results, from index [i]. *)
Fixpoint mapMi {A B} (f : nat -> A -> M B) (i : nat) (l : list A) : M (list B) :=
  match l with
  | [] => ret []
  | x :: rest => y <- f i x ;; ys <- mapMi f (S i) rest ;; ret (y :: ys)
  end.

(** The messages of the [TypeError]s that Node raises on a value of the
    wrong shape. *)
Definition notAFunction (expr : string) : string := expr ^^ " is not a function".

Definition nullProperty (property : string) : string :=
  "Cannot read properties of null (reading '" ^^ property ^^ "')".

(** An element of a parsed array, at the first property read from it. *)
Definition element {A} (x : option A) (property : string) : M A :=
  match x with
  | Some a => ret a
  | None => throw (nullProperty property)
  end.

(** [v.map(f)], where [v] is the value of the expression [expr]. *)
Definition mapArrayish {A B} (expr : string) (f : option A -> M B)
    (v : Arrayish A) : M (list B) :=
  match v with
  | Elements items => mapM f items
  | NotArray => throw (notAFunction (expr ^^ ".map"))
  end.

Definition getDb : M Store := fun s => (Ok (db s), s).

Definition putDb (d : Store) : M unit :=
  fun s => (Ok tt, mkState d (emitted s) (nextUuid s) (clock s) (calls s)).

(** [uuidv4()] *)
Definition uuidOf (n : nat) : string := "uuid-" ^^ Js.showNat n.

Definition uuidv4 : M string :=
  fun s => (Ok (uuidOf (nextUuid s)),
            mkState (db s) (emitted s) (S (nextUuid s)) (clock s) (calls s)).

(** Reads the logical clock for one external call and advances it. *)
Definition tick : M nat :=
  fun s => (Ok (clock s),
            mkState (db s) (emitted s) (nextUuid s) (S (clock s)) (calls s)).

Definition record (c : ModelCall) : M unit :=
  fun s => (Ok tt, mkState (db s) (emitted s) (nextUuid s) (clock s) (calls s ++ [c])).

(** [this.emit("progress", progress)] *)
Definition emitProgress (p : AnalysisProgress) : M unit :=
  fun s => (Ok tt, mkState (db s) (emitted s ++ [p]) (nextUuid s) (clock s) (calls s)).

(* ------------------------------------------------------------------ *)
(** *** SQL statements used by the pipeline *)

(** [SELECT * FROM evidence_items WHERE caseId = ?] *)
Definition getEvidenceByCase (caseId : string) : M (list EvidenceItem) :=
  d <- getDb ;;
  ret (filter (fun e => String.eqb (ev_caseId e) caseId) (evidence_items d)).

Definition setDerived (e : EvidenceItem) (dv : Derived) : EvidenceItem :=
  mkEvidence (ev_id e) (ev_caseId e) (ev_type e) (originalFilename e)
             (storageUrl e) (uploadedAt e) (Some dv).

(** [UPDATE evidence_items SET derived = ? WHERE id = ?] *)
Definition updateEvidenceDerived (id : string) (dv : Derived) : M unit :=
  d <- getDb ;;
  putDb (mkStore (cases d)
           (map (fun e => if String.eqb (ev_id e) id then setDerived e dv else e)
                (evidence_items d))
           (frame_evidence d) (case_analysis d)).

(** [INSERT INTO frame_evidence ...] with a freshly generated id. *)
Definition insertFrame (f : FrameEvidence) : M unit :=
  d <- getDb ;;
  putDb (mkStore (cases d) (evidence_items d) (frame_evidence d ++ [f])
                 (case_analysis d)).

(** [UPDATE frame_evidence SET derived = ? WHERE id = ?] *)
Definition updateFrameDerived (id : string) (dv : FrameDerived) : M unit :=
  d <- getDb ;;
  putDb (mkStore (cases d) (evidence_items d)
           (map (fun f => if String.eqb (fr_id f) id
                          then mkFrame (fr_id f) (parentEvidenceId f) (timeSeconds f)
                                       (fr_storageUrl f) (Some dv)
                          else f)
                (frame_evidence d))
           (case_analysis d)).

Fixpoint insertByTime (f : FrameEvidence) (l : list FrameEvidence) : list FrameEvidence :=
  match l with
  | [] => [f]
  | g :: rest => if timeSeconds f <? timeSeconds g then f :: l
                 else g :: insertByTime f rest
  end.

(** [SELECT * FROM frame_evidence WHERE parentEvidenceId = ? ORDER BY
    timeSeconds ASC] *)
Definition getFramesByEvidence (evidenceId : string) : M (list FrameEvidence) :=
  d <- getDb ;;
  ret (fold_left (fun acc f => insertByTime f acc)
         (filter (fun f => String.eqb (parentEvidenceId f) evidenceId) (frame_evidence d))
         []).

(** [INSERT OR REPLACE INTO case_analysis]: [caseId] is the primary key, so
    the rows in conflict are deleted before the new one is inserted. *)
Definition insertOrReplaceAnalysis (caseId : string) (a : CaseAnalysis) : M unit :=
  d <- getDb ;;
  putDb (mkStore (cases d) (evidence_items d) (frame_evidence d)
           (filter (fun r => negb (String.eqb (ar_caseId r) caseId)) (case_analysis d)
            ++ [mkAnalysisRow caseId a])).

(** [UPDATE cases SET status = ? WHERE id = ?] *)
Definition setCaseStatus (caseId : string) (st : CaseStatus) : M unit :=
  d <- getDb ;;
  putDb (mkStore
           (map (fun c => if String.eqb (c_id c) caseId then mkCaseRow (c_id c) st else c)
                (cases d))
           (evidence_items d) (frame_evidence d) (case_analysis d)).

(* ================================================================== *)
(** ** External collaborators *)

Record Env := mkEnv {
  uploadsDir : string;
  (** [fs.existsSync] *)
  existsSync : string -> bool;
  (** [fs.readFileSync(path)] and [fs.readFileSync(path, "utf-8")] *)
  readFileSync : string -> result string;
  (** [fs.readFileSync(path, "latin1")] *)
  readFileLatin1 : string -> result string;
  (** ffprobe and ffmpeg on a video, then the sorted frame files; rejects
      when either tool fails or the duration is 0. *)
  ffmpegFrames : nat -> string -> result (list string);
  summaryReply : nat -> EvidenceItem -> option string -> option string -> Reply SummaryJson;
  transcriptReply : nat -> string -> string -> result string;
  fusionReply : nat -> list EvidenceSummary -> Reply FusionJson;
  contradictionReply : nat -> list TimelineEvent -> list EvidenceSummary -> list string
                       -> Reply ContradictionJson;
  scenarioReply : nat -> string -> list TimelineEvent -> list Contradiction
                  -> Reply ScenarioJson;
  imageOutcome : nat -> Scenario -> string -> ImageOutcome
}.

(* ================================================================== *)
(** ** GeminiClient (services/geminiClient.ts) *)

Section Pipeline.

Variable env : Env.

Definition nl : string := String (ascii_of_nat 10) EmptyString.

(** [summarizeEvidence]: a rejected call is rethrown with a prefix; a reply
    without usable JSON falls back to the first 300 characters of the text. *)
Definition summarizeEvidence (evidence : EvidenceItem)
    (imageData textContent : option string) : M GeminiSummary :=
  t <- tick ;;
  match summaryReply env t evidence imageData textContent with
  | CallFails msg => throw ("Failed to summarize evidence: " ^^ msg)
  | Json text parsed =>
      ret (mkGeminiSummary
             (Js.orElse (sj_summary parsed) (Js.take 300 text))
             (Js.orEmpty (sj_tags parsed))
             (sj_timeHint parsed)
             (Js.orElse (sj_reasoning parsed) "Analyzed evidence item for key details."))
  | BadJson text _ | NoJson text =>
      ret (mkGeminiSummary (Js.take 300 text) [] None
             "Processed evidence item (text-only response).")
  end.

(** [transcribeAudio] *)
Definition transcribeAudio (audioData mimeType : string) : M string :=
  t <- tick ;;
  match transcriptReply env t audioData mimeType with
  | Ok transcript => ret transcript
  | Throw msg => throw ("Failed to transcribe audio: " ^^ msg)
  end.

(** [fuseEvidence].  The guard on an empty input is outside the [try]; inside
    it a parse error is rethrown, and both it and a rejected call leave
    through the outer [catch] with the prefix. *)
Definition fuseEvidence (evidenceSummaries : list EvidenceSummary)
    : M GeminiFusionResult :=
  if length evidenceSummaries =? 0 then
    throw "No evidence summaries provided for fusion"
  else
    record (FuseCall evidenceSummaries) ;;;
    t <- tick ;;
    match fusionReply env t evidenceSummaries with
    | CallFails msg => throw ("Failed to fuse evidence: " ^^ msg)
    | BadJson _ msg => throw ("Failed to fuse evidence: " ^^ msg)
    | Json _ parsed =>
        let timeline :=
          match fj_timeline parsed with
          | Some events => events
          | None => []
          end in
        ret (mkFusionResult timeline
               (Js.orElse (fj_worldModel parsed)
                  "Analysis complete but world model description unavailable.")
               (Some (Js.orElse (fj_reasoning parsed)
                        "Fused evidence into unified timeline.")))
    | NoJson text =>
        ret (mkFusionResult
               [Some (mkFusionEvent "Evidence Collected" (Js.take 200 text)
                        (Some 0%Q) (Some (10 # 1)) (7 # 10)
                        (map (fun i => "Evidence " ^^ Js.showNat (i + 1))
                             (seq 0 (length evidenceSummaries))))]
               (Js.take 500 text)
               (Some "Processed evidence fusion (fallback mode)."))
    end.

(** [detectContradictions]: everything after the prompt is inside one
    [try], whose [catch] returns the empty result.  The parsed
    [contradictions] field is returned unchecked, whatever it is. *)
Definition detectContradictions (timeline : list TimelineEvent)
    (evidenceSummaries : list EvidenceSummary) (witnessStatements : list string)
    : M GeminiContradictionResult :=
  record (DetectCall timeline evidenceSummaries witnessStatements) ;;;
  t <- tick ;;
  match contradictionReply env t timeline evidenceSummaries witnessStatements with
  | Json _ parsed =>
      ret (mkContradictionResult (orNoElements (cj_contradictions parsed))
             (Some (Js.orElse (cj_reasoning parsed) "Analyzed for contradictions.")))
  | NoJson _ =>
      ret (mkContradictionResult (Elements [])
             (Some "Processed contradiction analysis."))
  | CallFails _ | BadJson _ _ =>
      ret (mkContradictionResult (Elements [])
             (Some "Failed to analyze contradictions."))
  end.

(** [generateScenarios], of the same shape. *)
Definition generateScenarios (worldModel : string) (timeline : list TimelineEvent)
    (contradictions : list Contradiction) : M GeminiScenarioResult :=
  record (ScenarioCall worldModel timeline contradictions) ;;;
  t <- tick ;;
  match scenarioReply env t worldModel timeline contradictions with
  | Json _ parsed =>
      ret (mkScenarioResult (orNoElements (sj_scenarios parsed))
             (Some (Js.orElse (sjs_reasoning parsed) "Generated scenarios.")))
  | NoJson _ =>
      ret (mkScenarioResult (Elements []) (Some "Processed scenario generation."))
  | CallFails _ | BadJson _ _ =>
      ret (mkScenarioResult (Elements []) (Some "Failed to generate scenarios."))
  end.

(* ================================================================== *)
(** ** Frame extraction (services/frameExtractionService.ts) *)

Record FrameExtractionResult := mkFrameExtraction {
  frames : list FrameEvidence;
  totalFrames : nat
}.

Definition extractFrames (videoPath caseId evidenceId : string)
    (intervalSeconds : nat) : M FrameExtractionResult :=
  t <- tick ;;
  frameFiles <- await (ffmpegFrames env t videoPath) ;;
  frames <- mapMi (fun index (_ : string) =>
                     frameId <- uuidv4 ;;
                     ret (mkFrame frameId evidenceId (index * intervalSeconds)
                            ("/uploads/" ^^ caseId ^^ "/frames/" ^^ frameId ^^ ".jpg")
                            None))
                  0 frameFiles ;;
  ret (mkFrameExtraction frames (length frames)).

(* ================================================================== *)
(** ** NanoBananaService.generateReconstruction *)

Definition placeholderUrls : list string :=
  [ "https://images.unsplash.com/photo-1586528116311-ad8dd3c8310d?w=2048&h=1536&fit=crop&q=95";
    "https://images.unsplash.com/photo-1497366216548-37526070297c?w=2048&h=1536&fit=crop&q=95";
    "https://images.unsplash.com/photo-1497366811353-6870744d04b2?w=2048&h=1536&fit=crop&q=95";
    "https://images.unsplash.com/photo-1524758631624-e2822e304c36?w=2048&h=1536&fit=crop&q=95";
    "https://images.unsplash.com/photo-1556912173-46c336c7fd55?w=2048&h=1536&fit=crop&q=95";
    "https://images.unsplash.com/photo-1556909114-f6e7ad7d3136?w=2048&h=1536&fit=crop&q=95" ].

Definition isDigit (c : ascii) : bool :=
  let n := nat_of_ascii c in (48 <=? n) && (n <=? 57).

Fixpoint digitsOf (s : string) : list nat :=
  match s with
  | EmptyString => []
  | String c rest =>
      if isDigit c then (nat_of_ascii c - 48) :: digitsOf rest else digitsOf rest
  end.

(** [parseInt(id.replace(/\D/g, "").substring(0, 8), 10) % urls.length], then
    [urls[index] || urls[0]]: no digit at all gives NaN and so the first
    url. *)
Definition placeholderUrl (scenarioId : string) : string :=
  let ds := firstn 8 (digitsOf scenarioId) in
  let index := fold_left (fun acc d => 10 * acc + d) ds 0 mod length placeholderUrls in
  nth index placeholderUrls "".

(** Every path of the source returns an image record: the outer and the
    fallback [catch] both end in the placeholder. *)
Definition generateReconstruction (caseId : string) (scenario : Scenario)
    (viewpoint : string) (type : ReconType) (description : string)
    : M ReconstructionImage :=
  id <- uuidv4 ;;
  t <- tick ;;
  match imageOutcome env t scenario viewpoint with
  | Generated4K ext =>
      ret (mkRecon id caseId (Some (sc_id scenario)) viewpoint type
             ("/uploads/" ^^ caseId ^^ "/reconstructions/" ^^ id ^^ "." ^^ ext)
             ("4K AI-generated reconstruction: " ^^ viewpoint ^^ " view of "
              ^^ name scenario))
  | GeneratedFlash ext =>
      ret (mkRecon id caseId (Some (sc_id scenario)) viewpoint type
             ("/uploads/" ^^ caseId ^^ "/reconstructions/" ^^ id ^^ "." ^^ ext)
             ("AI-generated reconstruction: " ^^ viewpoint ^^ " view of "
              ^^ name scenario))
  | Placeholder =>
      ret (mkRecon id caseId (Some (sc_id scenario)) viewpoint type
             (placeholderUrl (sc_id scenario))
             ("[Demo] " ^^ viewpoint ^^ " view - " ^^ name scenario
              ^^ ". Representative image for demonstration."))
  end.

(* ================================================================== *)
(** ** EvidenceService (services/evidenceService.ts) *)

Record FrameAnalysis := mkFrameAnalysis {
  fa_description : string;
  fa_tags : list string
}.

Record ProcessResults := mkResults {
  res_frames : option (list FrameEvidence);
  res_transcript : option string;
  res_summary : option string
}.

(** [analyzeVideoFrame]: a missing frame file and any error while reading or
    summarizing it end in a description, never in a throw. *)
Definition analyzeVideoFrame (frame : FrameEvidence) (evidence : EvidenceItem)
    : M FrameAnalysis :=
  let framePath :=
    Js.pathJoin (uploadsDir env)
      (Js.pathJoin (ev_caseId evidence) (Js.pathJoin "frames" (fr_id frame ^^ ".jpg"))) in
  if negb (existsSync env framePath) then
    ret (mkFrameAnalysis
           ("Frame at " ^^ Js.showNat (timeSeconds frame) ^^ "s: [not found]") [])
  else
    tryCatch
      (imageData <- await (readFileSync env framePath) ;;
       let frameEvidence :=
         mkEvidence (ev_id evidence) (ev_caseId evidence) Image
           ("frame_" ^^ Js.showNat (timeSeconds frame) ^^ "s.jpg")
           (storageUrl evidence) (uploadedAt evidence) (derived evidence) in
       result <- summarizeEvidence frameEvidence (Some imageData) None ;;
       updateFrameDerived (fr_id frame)
         (mkFrameDerived (gs_summary result) (gs_tags result)) ;;;
       ret (mkFrameAnalysis
              ("[" ^^ Js.showNat (timeSeconds frame) ^^ "s] " ^^ gs_summary result)
              (gs_tags result)))
      (fun _ =>
         ret (mkFrameAnalysis
                ("Frame at " ^^ Js.showNat (timeSeconds frame) ^^ "s: [analysis failed]")
                [])).

(** [tags.forEach(tag => allTags.add(tag))] on a [Set] kept in insertion
    order. *)
Definition addTags (allTags newTags : list string) : list string :=
  fold_left (fun acc tag => if existsb (String.eqb tag) acc then acc else acc ++ [tag])
            newTags allTags.

Definition lowerAscii (c : ascii) : ascii :=
  let n := nat_of_ascii c in
  if (65 <=? n) && (n <=? 90) then ascii_of_nat (n + 32) else c.

Fixpoint toLowerCase (s : string) : string :=
  match s with
  | EmptyString => EmptyString
  | String c rest => String (lowerAscii c) (toLowerCase rest)
  end.

(** [path.extname]: from the last dot of the base name on, or empty when the
    base name has no dot past its first character. *)
Fixpoint extnameFrom (atStart : bool) (s : string) : string :=
  match s with
  | EmptyString => EmptyString
  | String c rest =>
      if Ascii.eqb c "/"%char then extnameFrom true rest
      else
        let later := extnameFrom false rest in
        match later with
        | String _ _ => later
        | EmptyString =>
            if Ascii.eqb c "."%char && negb atStart
               && negb (Js.includes rest "/")
            then s else EmptyString
        end
  end.

Definition extname (s : string) : string := extnameFrom true s.

Definition mimeTypeOf (filename : string) : string :=
  let ext := toLowerCase (extname filename) in
  if String.eqb ext ".mp3" then "audio/mpeg"
  else if String.eqb ext ".m4a" then "audio/mp4"
  else if String.eqb ext ".ogg" then "audio/ogg"
  else "audio/wav".

Definition maxChars : nat := 50000.

(** The video block of [processEvidence].  Only [extractFrames] can throw
    inside its [try], before [results.frames] is assigned. *)
Definition processVideo (evidence : EvidenceItem) (filePath : string)
    (results : ProcessResults) : M ProcessResults :=
  tryCatch
    (frameResult <- extractFrames filePath (ev_caseId evidence) (ev_id evidence) 1 ;;
     forEach (frames frameResult) insertFrame ;;;
     let framesToAnalyze := framesToAnalyze (frames frameResult) in
     analyses <- mapM (fun frame => analyzeVideoFrame frame evidence) framesToAnalyze ;;
     let frameDescriptions := map fa_description analyses in
     let allTags := fold_left (fun acc a => addTags acc (fa_tags a)) analyses [] in
     let combinedDescription :=
       "VIDEO ANALYSIS: " ^^ originalFilename evidence ^^ nl
       ^^ "Duration: " ^^ Js.showNat (length (frames frameResult)) ^^ " seconds ("
       ^^ Js.showNat (length (frames frameResult)) ^^ " frames analyzed)" ^^ nl ^^ nl
       ^^ "FRAME-BY-FRAME ANALYSIS:" ^^ nl
       ^^ Js.join (nl ^^ nl) frameDescriptions in
     let d := spreadDerived evidence in
     updateEvidenceDerived (ev_id evidence)
       (mkDerived (Some combinedDescription) (Some allTags) (transcript d)
          (Some (map fr_id (frames frameResult)))
          (Some (length (frames frameResult))) (Some (length framesToAnalyze))
          (fullText d) (charCount d) (truncated d) (error d)) ;;;
     ret (mkResults (Some (frames frameResult)) (res_transcript results)
            (Some combinedDescription)))
    (fun errorMsg =>
       let d := spreadDerived evidence in
       updateEvidenceDerived (ev_id evidence)
         (mkDerived (Some ("Video processing failed: " ^^ errorMsg))
            (Some ["video"; "processing-error"]) (transcript d) (frameIds d)
            (frameCount d) (analyzedFrameCount d) (fullText d) (charCount d)
            (truncated d) (Some errorMsg)) ;;;
       ret results).

(** The audio block. *)
Definition processAudio (evidence : EvidenceItem) (filePath : string)
    (results : ProcessResults) : M ProcessResults :=
  tryCatch
    (audioData <- await (readFileSync env filePath) ;;
     let mimeType := mimeTypeOf (originalFilename evidence) in
     transcript <- transcribeAudio audioData mimeType ;;
     let summary :=
       "AUDIO TRANSCRIPT: " ^^ originalFilename evidence ^^ nl ^^ nl ^^ transcript in
     let d := spreadDerived evidence in
     updateEvidenceDerived (ev_id evidence)
       (mkDerived (Some summary) (Some ["audio"; "transcript"]) (Some transcript)
          (frameIds d) (frameCount d) (analyzedFrameCount d) (fullText d)
          (charCount d) (truncated d) (error d)) ;;;
     ret (mkResults (res_frames results) (Some transcript) (Some summary)))
    (fun errorMsg =>
       let d := spreadDerived evidence in
       updateEvidenceDerived (ev_id evidence)
         (mkDerived (Some ("Audio transcription failed: " ^^ errorMsg))
            (Some ["audio"; "transcription-error"]) (transcript d) (frameIds d)
            (frameCount d) (analyzedFrameCount d) (fullText d) (charCount d)
            (truncated d) (Some errorMsg)) ;;;
       ret results).

(** The text and document block. *)
Definition processText (evidence : EvidenceItem) (filePath : string)
    (results : ProcessResults) : M ProcessResults :=
  tryCatch
    (raw <- tryCatch (await (readFileSync env filePath))
                     (fun _ => await (readFileLatin1 env filePath)) ;;
     (if Js.isBlank raw then throw "File is empty or unreadable" else ret tt) ;;;
     let truncated := maxChars <? String.length raw in
     let textContent :=
       if truncated then
         Js.take maxChars raw ^^ nl ^^ nl ^^ "[... truncated from "
         ^^ Js.showNat (String.length raw) ^^ " to " ^^ Js.showNat maxChars
         ^^ " characters ...]"
       else raw in
     summaryResult <- summarizeEvidence evidence None (Some textContent) ;;
     let d := spreadDerived evidence in
     updateEvidenceDerived (ev_id evidence)
       (mkDerived (Some (gs_summary summaryResult)) (Some (gs_tags summaryResult))
          (transcript d) (frameIds d) (frameCount d) (analyzedFrameCount d)
          (Some textContent) (Some (String.length textContent)) (Some truncated)
          (error d)) ;;;
     ret (mkResults (res_frames results) (res_transcript results)
            (Some ("TEXT DOCUMENT: " ^^ originalFilename evidence ^^ nl ^^ nl
                   ^^ "CONTENT SUMMARY:" ^^ nl ^^ gs_summary summaryResult ^^ nl ^^ nl
                   ^^ "FULL TEXT:" ^^ nl ^^ textContent))))
    (fun errorMsg =>
       let d := spreadDerived evidence in
       updateEvidenceDerived (ev_id evidence)
         (mkDerived (Some ("Text file processing failed: " ^^ errorMsg))
            (Some ["text"; "processing-error"]) (transcript d) (frameIds d)
            (frameCount d) (analyzedFrameCount d) (fullText d) (charCount d)
            (truncated d) (Some errorMsg)) ;;;
       ret results).

(** The image block. *)
Definition processImage (evidence : EvidenceItem) (filePath : string)
    (results : ProcessResults) : M ProcessResults :=
  tryCatch
    (imageData <- await (readFileSync env filePath) ;;
     summaryResult <- summarizeEvidence evidence (Some imageData) None ;;
     let d := spreadDerived evidence in
     updateEvidenceDerived (ev_id evidence)
       (mkDerived (Some (gs_summary summaryResult)) (Some (gs_tags summaryResult))
          (transcript d) (frameIds d) (frameCount d) (analyzedFrameCount d)
          (fullText d) (charCount d) (truncated d) (error d)) ;;;
     ret (mkResults (res_frames results) (res_transcript results)
            (Some ("IMAGE: " ^^ originalFilename evidence ^^ nl ^^ nl
                   ^^ gs_summary summaryResult))))
    (fun errorMsg =>
       let d := spreadDerived evidence in
       updateEvidenceDerived (ev_id evidence)
         (mkDerived (Some ("Image analysis failed: " ^^ errorMsg))
            (Some ["image"; "analysis-error"]) (transcript d) (frameIds d)
            (frameCount d) (analyzedFrameCount d) (fullText d) (charCount d)
            (truncated d) (Some errorMsg)) ;;;
       ret results).

Definition when (b : bool) (block : ProcessResults -> M ProcessResults)
    (results : ProcessResults) : M ProcessResults :=
  if b then block results else ret results.

(** [processEvidence]: the existence check, then the four type blocks in
    source order.  [fs.statSync] on a file that exists is taken to
    succeed. *)
Definition processEvidence (evidence : EvidenceItem) (filePath : string)
    : M ProcessResults :=
  let results := mkResults None None None in
  if negb (existsSync env filePath) then
    let d := spreadDerived evidence in
    updateEvidenceDerived (ev_id evidence)
      (mkDerived (Some ("Error: File not found at " ^^ filePath))
         (Some ["error"; "file-not-found"]) (transcript d) (frameIds d)
         (frameCount d) (analyzedFrameCount d) (fullText d) (charCount d)
         (truncated d) (error d)) ;;;
    ret results
  else
    results <- when (EvidenceType_eqb (ev_type evidence) Video)
                 (processVideo evidence filePath) results ;;
    results <- when (EvidenceType_eqb (ev_type evidence) Audio)
                 (processAudio evidence filePath) results ;;
    results <- when (EvidenceType_eqb (ev_type evidence) Text
                     || EvidenceType_eqb (ev_type evidence) Document)
                 (processText evidence filePath) results ;;
    results <- when (EvidenceType_eqb (ev_type evidence) Image)
                 (processImage evidence filePath) results ;;
    ret results.

(* ================================================================== *)
(** ** AnalysisOrchestrator (services/analysisOrchestrator.ts) *)

Variable caseId : string.

Definition running (step : string) (progress : Z) (reasoning : string)
    (stepNumber : nat) : AnalysisProgress :=
  mkProgress step progress reasoning None StRunning (Some stepNumber) (Some 7).

(** [Math.floor((i / evidence.length) * 15)] *)
Definition itemProgress (i n : nat) : Z :=
  Qfloor (inject_Z (Z.of_nat i) / inject_Z (Z.of_nat n) * 15).

Definition processing (i n : nat) (item : EvidenceItem) (reasoning : string)
    : AnalysisProgress :=
  mkProgress "Processing evidence" (itemProgress i n) reasoning
    (Some (originalFilename item)) StRunning (Some 0) (Some 7).

Definition filePathOf (item : EvidenceItem) : string :=
  let storageUrlPath :=
    if Js.startsWith (storageUrl item) "/" then Js.slice1 (storageUrl item)
    else storageUrl item in
  Js.pathJoin (uploadsDir env) storageUrlPath.

Definition findById (id : string) (l : list EvidenceItem) : option EvidenceItem :=
  find (fun e => String.eqb (ev_id e) id) l.

Definition summaryOf (o : option EvidenceItem) : option string :=
  match o with Some e => derivedSummary e | None => None end.

(** One iteration of the evidence loop of [run]. *)
Definition processItem (n i : nat) (item : EvidenceItem) : M unit :=
  let filePath := filePathOf item in
  emitProgress
    (processing i n item
       ("Starting analysis of " ^^ showType (ev_type item) ^^ ": "
        ^^ originalFilename item ^^ " (" ^^ Js.showNat (i + 1) ^^ "/"
        ^^ Js.showNat n ^^ ")...")) ;;;
  if negb (existsSync env filePath) then
    emitProgress
      (processing i n item
         ("Warning: File not found for " ^^ originalFilename item ^^ ". Skipping..."))
  else
    tryCatch
      (processResult <- processEvidence item filePath ;;
       updatedItem <- getEvidenceByCase caseId ;;
       let currentItem := findById (ev_id item) updatedItem in
       (match summaryOf currentItem with
        | Some (String c rest) =>
            emitProgress
              (processing (i + 1) n item
                 ("Completed " ^^ showType (ev_type item) ^^ ": "
                  ^^ originalFilename item ^^ nl ^^ "Summary: "
                  ^^ Js.take 150 (String c rest) ^^ "..."))
        | _ =>
            emitProgress
              (processing (i + 1) n item
                 ("Processed " ^^ showType (ev_type item) ^^ ": "
                  ^^ originalFilename item ^^ " but summary not available"))
        end) ;;;
       match ev_type item, res_frames processResult with
       | Video, Some frames =>
           emitProgress
             (processing (i + 1) n item
                ("Extracted " ^^ Js.showNat (length frames)
                 ^^ " frames from video. Analyzing key frames..."))
       | _, _ => ret tt
       end)
      (fun errorMsg =>
         emitProgress
           (processing (i + 1) n item
              ("Error processing " ^^ originalFilename item ^^ ": " ^^ errorMsg))).

Fixpoint forEachIndexed {A} (body : nat -> A -> M unit) (i : nat) (l : list A)
    : M unit :=
  match l with
  | [] => ret tt
  | x :: rest => body i x ;;; forEachIndexed body (S i) rest
  end.

Definition optIncludes (o : option string) (needle : string) : bool :=
  match o with
  | Some s => Js.includes s needle
  | None => false
  end.

(** The body of the [for (const e of updatedEvidence)] loop: health check
    with one retry, fallback summary, frame and transcript tags. *)
Definition collectSummary (e : EvidenceItem) : M EvidenceSummary :=
  let summary0 := derivedSummary e in
  let tags0 := Js.orEmpty (derivedTags e) in
  st <-
    (if negb (Js.truthy summary0) || optIncludes summary0 "Error"
        || optIncludes summary0 "Error during analysis"
        || optIncludes summary0 "Evidence file:"
     then
       let filePath := filePathOf e in
       if existsSync env filePath then
         tryCatch
           (processEvidence e filePath ;;;
            reloaded <- getEvidenceByCase caseId ;;
            match findById (ev_id e) reloaded with
            | Some reloadedItem =>
                if Js.truthy (derivedSummary reloadedItem)
                   && negb (optIncludes (derivedSummary reloadedItem) "Evidence file:")
                then ret (derivedSummary reloadedItem,
                          Js.orEmpty (derivedTags reloadedItem))
                else ret (summary0, tags0)
            | None => ret (summary0, tags0)
            end)
           (fun _ => ret (summary0, tags0))
       else ret (summary0, tags0)
     else ret (summary0, tags0)) ;;
  let summary := fst st in
  let tags := snd st in
  let summary :=
    if negb (Js.truthy summary) || optIncludes summary "Evidence file:"
       || optIncludes summary "Error"
    then
      match ev_type e with
      | Video => "Video file: " ^^ originalFilename e ^^ " - processing may have failed."
      | Audio =>
          match derivedTranscript e with
          | Some (String c rest) =>
              "Audio transcript: " ^^ Js.take 300 (String c rest) ^^ "..."
          | _ => "Audio file: " ^^ originalFilename e ^^ " - transcription may have failed."
          end
      | Text | Document =>
          "Text document: " ^^ originalFilename e ^^ " - content analysis may have failed."
      | Image => showType (ev_type e) ^^ " file: " ^^ originalFilename e
                 ^^ " - analysis incomplete."
      end
    else Js.orElse summary "" in
  st <-
    (match ev_type e with
     | Video =>
         tryCatch
           (frames <- getFramesByEvidence (ev_id e) ;;
            if 0 <? length frames then
              ret (summary ^^ " [" ^^ Js.showNat (length frames)
                   ^^ " frames extracted and analyzed]",
                   tags ++ [Js.showNat (length frames) ^^ " video frames"])
            else ret (summary, tags))
           (fun _ => ret (summary, tags))
     | _ => ret (summary, tags)
     end) ;;
  let summary := fst st in
  let tags := snd st in
  let tags :=
    if EvidenceType_eqb (ev_type e) Audio && Js.truthy (derivedTranscript e)
    then tags ++ ["transcribed"] else tags in
  ret (mkEvidenceSummary e
         (Js.orElse (Some summary) ("Evidence: " ^^ originalFilename e))
         (if 0 <? length tags then tags else [showType (ev_type e)])).

Definition insertByLikelihood (x : Scenario) : list Scenario -> list Scenario :=
  fix insert (l : list Scenario) : list Scenario :=
    match l with
    | [] => [x]
    | y :: rest => if Qle_bool (likelihood y) (likelihood x) then x :: l
                   else y :: insert rest
    end.

(** [scenarios.sort((a, b) => b.likelihood - a.likelihood)], a stable sort by
    decreasing likelihood. *)
Definition sortByLikelihood (l : list Scenario) : list Scenario :=
  fold_right insertByLikelihood [] l.

Definition pushReconstruction (s : Scenario) (reconId : string) : Scenario :=
  mkScenario (sc_id s) (sc_caseId s) (name s) (likelihood s) (narrative s)
    (sc_supportingEvidenceIds s) (conflictingEvidenceIds s)
    (reconstructionImageIds s ++ [reconId]) (sc_reasoning s) (keyFindings s)
    (supportingEvidence s) (conflictingEvidence s).

(** The witness statements of [run]: filtered from [evidence], the list
    loaded before the evidence loop. *)
Definition witnessStatementsOf (evidence : list EvidenceItem) : list string :=
  map (fun e => Js.orElse (derivedSummary e) "")
      (filter (fun e => EvidenceType_eqb (ev_type e) Text
                        && Js.truthy (derivedSummary e)) evidence).

(** The [try] block of [run]. *)
Definition runBody : M CaseAnalysis :=
  emitProgress
    (running "Preparing evidence" 0
       "Collecting and processing uploaded evidence files..." 0) ;;;
  evidence <- getEvidenceByCase caseId ;;
  (if length evidence =? 0 then throw "No evidence found for case" else ret tt) ;;;
  forEachIndexed (processItem (length evidence)) 0 evidence ;;;
  emitProgress
    (running "Collecting summaries" 16
       "Collecting all individual evidence summaries for fusion..." 1) ;;;
  updatedEvidence <- getEvidenceByCase caseId ;;
  evidenceSummaries <- mapM collectSummary updatedEvidence ;;
  (if length evidenceSummaries =? 0
   then throw "No evidence items found for analysis" else ret tt) ;;;
  emitProgress
    (running "Fusing evidence" 30
       ("Combining " ^^ Js.showNat (length evidenceSummaries)
        ^^ " evidence items into a unified world model...") 2) ;;;
  fusionResult <-
    tryCatch (fuseEvidence evidenceSummaries)
             (fun errorMsg => throw ("Failed to fuse evidence: " ^^ errorMsg)) ;;
  emitProgress
    (running "Fusing evidence" 40
       (Js.orElse (fr_reasoning fusionResult)
          ("Built timeline with " ^^ Js.showNat (length (fr_timeline fusionResult))
           ^^ " events.")) 2) ;;;
  (* [id: uuidv4()] is evaluated before the first property of [t] is read *)
  timeline <-
    mapM (fun t =>
            id <- uuidv4 ;;
            t <- element t "label" ;;
            ret (mkTimelineEvent id caseId (fe_label t) (fe_description t)
                   (fe_startTime t) (fe_endTime t) (fe_confidence t)
                   (fe_supportingEvidenceIds t)))
         (fr_timeline fusionResult) ;;
  emitProgress
    (running "Detecting contradictions" 50
       "Analyzing testimonies and evidence for inconsistencies..." 3) ;;;
  let witnessStatements := witnessStatementsOf evidence in
  contradictionResult <-
    detectContradictions timeline evidenceSummaries witnessStatements ;;
  emitProgress
    (running "Detecting contradictions" 60
       (Js.orElse (cr_reasoning contradictionResult)
          "Identified contradictions in testimonies.") 3) ;;;
  contradictions <-
    mapArrayish "contradictionResult.contradictions"
      (fun c =>
         id <- uuidv4 ;;
         c <- element c "description" ;;
         ret (mkContradiction id caseId (ci_description c)
                (ci_involvedEvidenceIds c) (ci_involvedWitnesses c)
                (ci_severity c)))
      (cr_contradictions contradictionResult) ;;
  emitProgress
    (running "Analyzing shadows and reflections" 65
       "Examining visual evidence for off-camera inference..." 4) ;;;
  emitProgress
    (running "Generating scenarios" 70
       "Creating multiple plausible explanations..." 5) ;;;
  scenarioResult <-
    generateScenarios (worldModel fusionResult) timeline contradictions ;;
  emitProgress
    (running "Generating scenarios" 80
       (Js.orElse (sr_reasoning scenarioResult) "Generated plausible scenarios.") 5) ;;;
  scenarios <-
    mapArrayish "scenarioResult.scenarios"
      (fun s =>
         id <- uuidv4 ;;
         s <- element s "name" ;;
         ret (mkScenario id caseId (si_name s) (si_likelihood s) (si_narrative s)
                (si_supportingEvidenceIds s) (si_conflictingEvidenceIds s) []
                (Js.orElse (scenarioReasoning s)
                   "Scenario derived from evidence analysis.")
                (Js.orEmpty (si_keyFindings s))
                (Js.orEmpty (si_supportingEvidence s))
                (Js.orEmpty (si_conflictingEvidence s))))
      (sr_scenarios scenarioResult) ;;
  emitProgress
    (running "Rendering reconstructions" 85
       "Generating 4K scene reconstructions..." 6) ;;;
  (* the sort is in place and [slice] shares the scenario objects, so the
     pushed image ids show in [scenarios] *)
  let sorted := sortByLikelihood scenarios in
  let topScenarios := firstn 2 sorted in
  rendered <-
    mapM (fun scenario =>
            recon <- generateReconstruction caseId scenario "from doorway"
                       MostLikely (narrative scenario) ;;
            ret (pushReconstruction scenario (ri_id recon), recon))
         topScenarios ;;
  let scenarios := map fst rendered ++ skipn 2 sorted in
  let allReconstructions := map snd rendered in
  emitProgress
    (running "Rendering reconstructions" 95 "Completed scene reconstructions." 6) ;;;
  emitProgress
    (running "Finalizing analysis" 98 "Assembling final case analysis..." 7) ;;;
  let heatmapSegments := heatmapSegments timeline contradictions in
  let evidenceSummaryList :=
    map (fun es => mkSummaryEntry (ev_id (es_evidence es)) (es_summary es)
                     (es_tags es) true)
        evidenceSummaries in
  let caseAnalysis :=
    mkCaseAnalysis caseId Completed timeline contradictions scenarios []
      (worldModel fusionResult) heatmapSegments
      (mkReasoning
         (Js.orElse (fr_reasoning fusionResult)
            "Fused evidence into unified world model.")
         (Js.orElse (cr_reasoning contradictionResult) "Analyzed for inconsistencies.")
         (Js.orElse (sr_reasoning scenarioResult) "Generated plausible scenarios."))
      evidenceSummaryList allReconstructions in
  insertOrReplaceAnalysis caseId caseAnalysis ;;;
  setCaseStatus caseId Completed ;;;
  emitProgress
    (mkProgress "Analysis complete" 100 "Case analysis completed successfully."
       None StCompleted (Some 7) (Some 7)) ;;;
  ret caseAnalysis.

(** [run]: the [try] block and its [catch], which reports, marks the case
    and rethrows. *)
Definition run : M CaseAnalysis :=
  tryCatch runBody
    (fun errorMsg =>
       emitProgress
         (mkProgress "Error" 0 ("Analysis failed: " ^^ errorMsg) None StError
            None None) ;;;
       setCaseStatus caseId Errored ;;;
       throw errorMsg).

End Pipeline.

(* ================================================================== *)
(** * Vocabulary of the properties *)

(** Every frame of [result] sits below index [i] and below the last index. *)
Definition below (frames : list FrameEvidence) (i : nat)
    (result : list FrameEvidence) : Prop :=
  Forall (fun f => exists j, j < i /\ j < length frames - 1
                             /\ nth_error frames j = Some f) result.

(** *** Outcomes of monadic code *)

(** [keeps R m]: whatever [m] returns or throws, the states before and after
    are related by [R]. *)
Definition keeps (R : State -> State -> Prop) {A} (m : M A) : Prop :=
  forall s r s', m s = (r, s') -> R s s'.

(** [total m]: [m] returns a value from every state; it never throws. *)
Definition total {A} (m : M A) : Prop :=
  forall s, exists a s', m s = (Ok a, s').

(** The tables and counters that only the orchestrator itself may change. *)
Definition sameTables (s s' : State) : Prop :=
  case_analysis (db s') = case_analysis (db s)
  /\ cases (db s') = cases (db s)
  /\ map ev_caseId (evidence_items (db s')) = map ev_caseId (evidence_items (db s))
  /\ nextUuid s <= nextUuid s'.

(** No progress event is emitted, and [sameTables]. *)
Definition quiet (s s' : State) : Prop :=
  emitted s' = emitted s /\ sameTables s s'.

(** Exactly the events [L] are emitted, and [sameTables]. *)
Definition advance (L : list AnalysisProgress) (s s' : State) : Prop :=
  emitted s' = emitted s ++ L /\ sameTables s s'.

Definition runningIn (lo hi : Z) (p : AnalysisProgress) : Prop :=
  status p = StRunning /\ (lo <= progress p <= hi)%Z.

Definition nondecreasing (L : list AnalysisProgress) : Prop :=
  StronglySorted (fun a b => (progress a <= progress b)%Z) L.

(** A stretch of running events with non-decreasing progress in [lo, hi]. *)
Definition good (lo hi : Z) (L : list AnalysisProgress) : Prop :=
  Forall (runningIn lo hi) L /\ nondecreasing L.

(* ================================================================== *)
(** * Concrete cases used to exercise the pipeline *)

Module Demo.

Definition caseId : string := "case-1".

(** A freshly uploaded witness statement: [createEvidence] stores [{}] as
    its [derived]. *)
Definition statement : EvidenceItem :=
  mkEvidence "ev-1" caseId Text "statement.txt" "/case-1/statement.txt"
             "2025-01-01T10:00:00.000Z" (Some emptyDerived).

Definition clip : EvidenceItem :=
  mkEvidence "ev-2" caseId Video "clip.mp4" "/case-1/clip.mp4"
             "2025-01-01T09:00:00.000Z" (Some emptyDerived).

Definition store (items : list EvidenceItem) : Store :=
  mkStore [mkCaseRow caseId Running] items [] [].

Definition start (items : list EvidenceItem) : State :=
  mkState (store items) [] 0 0 [].

Definition summaryJson : Reply SummaryJson :=
  Json "{...}" (mkSummaryJson (Some "Witness saw a man leave at 9pm.")
                              (Some ["witness"; "9pm"]) None None).

Definition event (label : string) (startTime endTime : Q) : FusionEvent :=
  mkFusionEvent label "..." (Some startTime) (Some endTime) (8 # 10) ["Evidence 1"].

Definition fusionJson (events : option (list FusionEvent)) : Reply FusionJson :=
  Json "{...}" (mkFusionJson (option_map (map Some) events)
                             (Some "A man left the building.") None).

Definition contradiction (n : nat) : ContradictionItem :=
  mkContradictionItem ("contradiction " ^^ Js.showNat n) ["Evidence 1"]
                      ["Witness 1"] Medium.

Definition scenario (name : string) (likelihood : Q) : ScenarioItem :=
  mkScenarioItem name likelihood "He left." ["Evidence 1"] [] None None None None.

(** Every file exists and reads as one sentence; ffmpeg finds [frameCount]
    frames; each summary call answers [summaryAt]; the stage calls answer
    with the given replies. *)
Definition world (frameCount : nat) (summaryAt : nat -> Reply SummaryJson)
    (fusion : Reply FusionJson) (contradictions : Reply ContradictionJson)
    (scenarios : Reply ScenarioJson) : Env :=
  mkEnv "./uploads"
        (fun _ => true)
        (fun _ => Ok "I saw a man leave at 9pm.")
        (fun _ => Ok "I saw a man leave at 9pm.")
        (fun _ _ => Ok (map (fun i => "frame_" ^^ Js.showNat i ^^ ".jpg")
                            (seq 1 frameCount)))
        (fun t _ _ _ => summaryAt t)
        (fun _ _ _ => Ok "Speaker 1: hello")
        (fun _ _ => fusion)
        (fun _ _ _ _ => contradictions)
        (fun _ _ _ _ => scenarios)
        (fun _ _ _ => Placeholder).

End Demo.

(* ================================================================== *)
(** * Vocabulary of the run-level properties *)

(** [post m s Q]: the outcome of [m] from [s] satisfies [Q]. *)
Definition post {A} (m : M A) (s : State) (Q : result A -> State -> Prop) : Prop :=
  forall r s', m s = (r, s') -> Q r s'.

(** Identifiers handed out by the uuid supply between two counter values. *)
Definition minted (lo hi : nat) (id : string) : Prop :=
  exists k, lo <= k < hi /\ id = uuidOf k.

Definition analysisIds (a : CaseAnalysis) : list string :=
  map te_id (timeline a) ++ map sc_id (scenarios a).

Definition completedEvent : AnalysisProgress :=
  mkProgress "Analysis complete" 100 "Case analysis completed successfully."
             None StCompleted (Some 7) (Some 7).

Definition errorEvent (message : string) : AnalysisProgress :=
  mkProgress "Error" 0 ("Analysis failed: " ^^ message) None StError None None.

Definition withStatus (caseId : string) (st : CaseStatus) (rows : list CaseRow)
    : list CaseRow :=
  map (fun c => if String.eqb (c_id c) caseId then mkCaseRow (c_id c) st else c) rows.

Definition evidenceOf (caseId : string) (s : State) : list EvidenceItem :=
  filter (fun e => String.eqb (ev_caseId e) caseId) (evidence_items (db s)).

Definition analysesOf (caseId : string) (s : State) : list CaseAnalysis :=
  map ar_analysis
      (filter (fun r => String.eqb (ar_caseId r) caseId) (case_analysis (db s))).

(** After [s0] the run has emitted a good stretch of events ending at
    progress [v] or below, and nothing else the orchestrator owns changed. *)
Definition track (s0 : State) (v : Z) (s : State) : Prop :=
  exists L, advance L s0 s /\ good 0 v L.

Definition removeAnalysis (caseId : string) (rows : list AnalysisRow)
    : list AnalysisRow :=
  filter (fun r => negb (String.eqb (ar_caseId r) caseId)) rows.

(** What a completed run leaves behind. *)
Definition completedPost (caseId : string) (s0 : State) (a : CaseAnalysis)
    (s' : State) : Prop :=
  (exists pre, emitted s' = emitted s0 ++ pre ++ [completedEvent] /\ good 0 98 pre)
  /\ case_analysis (db s')
     = removeAnalysis caseId (case_analysis (db s0)) ++ [mkAnalysisRow caseId a]
  /\ cases (db s') = withStatus caseId Completed (cases (db s0))
  /\ Forall (minted (nextUuid s0) (nextUuid s')) (analysisIds a)
  /\ heatmap_segments a = heatmapSegments (timeline a) (contradictions a)
  /\ evidenceOf caseId s0 <> [].

(** The value [v] of [expr] cannot be mapped over: it is no array, or one
    of its elements is [null]; [e] is the message of the [TypeError]. *)
Definition misshapen {A} (expr property : string) (v : Arrayish A) (e : string)
    : Prop :=
  match v with
  | NotArray => e = notAFunction (expr ^^ ".map")
  | Elements items => In None items /\ e = nullProperty property
  end.

(** Why a run can fail: the case has no evidence; the fusion call throws;
    or a reply that was parsed has the wrong shape, which is a [null] event
    in the timeline, or contradictions or scenarios that are no array or
    hold a [null] element. *)
Definition failureCause (env : Env) (caseId : string) (s0 : State) (e : string)
    : Prop :=
  (e = "No evidence found for case" /\ evidenceOf caseId s0 = [])
  \/ (evidenceOf caseId s0 <> []
      /\ exists summaries s1 s2 m,
           summaries <> []
           /\ fuseEvidence env summaries s1 = (Throw m, s2)
           /\ e = "Failed to fuse evidence: " ^^ m)
  \/ (evidenceOf caseId s0 <> []
      /\ exists summaries s1 s2 fusionResult,
           fuseEvidence env summaries s1 = (Ok fusionResult, s2)
           /\ In None (fr_timeline fusionResult)
           /\ e = nullProperty "label")
  \/ (evidenceOf caseId s0 <> []
      /\ exists tl es ws s1 s2 contradictionResult,
           detectContradictions env tl es ws s1 = (Ok contradictionResult, s2)
           /\ misshapen "contradictionResult.contradictions" "description"
                (cr_contradictions contradictionResult) e)
  \/ (evidenceOf caseId s0 <> []
      /\ exists wm tl cs s1 s2 scenarioResult,
           generateScenarios env wm tl cs s1 = (Ok scenarioResult, s2)
           /\ misshapen "scenarioResult.scenarios" "name"
                (sr_scenarios scenarioResult) e).

(** What the [try] block of [run] guarantees, by outcome. *)
Definition bodyPost (env : Env) (caseId : string) (s0 : State)
    (r : result CaseAnalysis) (s' : State) : Prop :=
  nextUuid s0 <= nextUuid s'
  /\ match r with
     | Ok a => completedPost caseId s0 a s'
     | Throw e =>
         (exists pre, emitted s' = emitted s0 ++ pre /\ good 0 80 pre)
         /\ case_analysis (db s') = case_analysis (db s0)
         /\ cases (db s') = cases (db s0)
         /\ failureCause env caseId s0 e
     end.

(** What [run] guarantees, by outcome. *)
Definition runPost (env : Env) (caseId : string) (s0 : State)
    (r : result CaseAnalysis) (s' : State) : Prop :=
  nextUuid s0 <= nextUuid s'
  /\ match r with
     | Ok a => completedPost caseId s0 a s'
     | Throw e =>
         (exists pre, emitted s' = emitted s0 ++ pre ++ [errorEvent e]
                      /\ good 0 80 pre)
         /\ case_analysis (db s') = case_analysis (db s0)
         /\ cases (db s') = withStatus caseId Errored (cases (db s0))
         /\ failureCause env caseId s0 e
     end.

(* ================================================================== *)
(** * Vocabulary of the evidence-processing properties *)

(** The text handed to the summarizer: [processText]'s truncation. *)
Definition textContentOf (raw : string) : string :=
  if maxChars <? String.length raw then
    Js.take maxChars raw ^^ nl ^^ nl ^^ "[... truncated from "
    ^^ Js.showNat (String.length raw) ^^ " to " ^^ Js.showNat maxChars
    ^^ " characters ...]"
  else raw.

(** The utf-8 read with its latin1 fallback. *)
Definition readText (env : Env) (path : string) : result string :=
  match readFileSync env path with
  | Ok raw => Ok raw
  | Throw _ => readFileLatin1 env path
  end.

Inductive FailureKind :=
  | MissingFile | VideoFailed | AudioFailed | TextFailed | ImageFailed | FrameFailed.

(** The failures that can occur inside one [processEvidence] call started in
    state [s], each with the message it carries.  The first model call of the
    call reads the clock of [s]; the first analysed frame of a video is
    summarized one tick later and carries the next uuid of [s]. *)
Inductive Failure (env : Env) (s : State) (ev : EvidenceItem) (path : string)
    : FailureKind -> string -> Prop :=
  | missing_file :
      existsSync env path = false ->
      Failure env s ev path MissingFile path
  | frame_extraction : forall msg,
      existsSync env path = true -> ev_type ev = Video ->
      ffmpegFrames env (clock s) path = Throw msg ->
      Failure env s ev path VideoFailed msg
  | audio_read : forall msg,
      existsSync env path = true -> ev_type ev = Audio ->
      readFileSync env path = Throw msg ->
      Failure env s ev path AudioFailed msg
  | transcription : forall data msg,
      existsSync env path = true -> ev_type ev = Audio ->
      readFileSync env path = Ok data ->
      transcriptReply env (clock s) data (mimeTypeOf (originalFilename ev)) = Throw msg ->
      Failure env s ev path AudioFailed ("Failed to transcribe audio: " ^^ msg)
  | text_read : forall msg,
      existsSync env path = true -> ev_type ev = Text \/ ev_type ev = Document ->
      readText env path = Throw msg ->
      Failure env s ev path TextFailed msg
  | text_empty : forall raw,
      existsSync env path = true -> ev_type ev = Text \/ ev_type ev = Document ->
      readText env path = Ok raw -> Js.isBlank raw = true ->
      Failure env s ev path TextFailed "File is empty or unreadable"
  | text_summarization : forall raw msg,
      existsSync env path = true -> ev_type ev = Text \/ ev_type ev = Document ->
      readText env path = Ok raw -> Js.isBlank raw = false ->
      summaryReply env (clock s) ev None (Some (textContentOf raw)) = CallFails msg ->
      Failure env s ev path TextFailed ("Failed to summarize evidence: " ^^ msg)
  | image_read : forall msg,
      existsSync env path = true -> ev_type ev = Image ->
      readFileSync env path = Throw msg ->
      Failure env s ev path ImageFailed msg
  | image_summarization : forall data msg,
      existsSync env path = true -> ev_type ev = Image ->
      readFileSync env path = Ok data ->
      summaryReply env (clock s) ev (Some data) None = CallFails msg ->
      Failure env s ev path ImageFailed ("Failed to summarize evidence: " ^^ msg)
  | frame_summarization : forall file files data msg,
      existsSync env path = true -> ev_type ev = Video ->
      ffmpegFrames env (clock s) path = Ok (file :: files) ->
      let framePath :=
        Js.pathJoin (uploadsDir env)
          (Js.pathJoin (ev_caseId ev)
             (Js.pathJoin "frames" (uuidOf (nextUuid s) ^^ ".jpg"))) in
      existsSync env framePath = true ->
      readFileSync env framePath = Ok data ->
      summaryReply env (S (clock s))
        (mkEvidence (ev_id ev) (ev_caseId ev) Image "frame_0s.jpg" (storageUrl ev)
           (uploadedAt ev) (derived ev))
        (Some data) None = CallFails msg ->
      Failure env s ev path FrameFailed ("Failed to summarize evidence: " ^^ msg).

Definition failureSummary (kind : FailureKind) (msg : string) : string :=
  match kind with
  | MissingFile => "Error: File not found at " ^^ msg
  | VideoFailed => "Video processing failed: " ^^ msg
  | AudioFailed => "Audio transcription failed: " ^^ msg
  | TextFailed => "Text file processing failed: " ^^ msg
  | ImageFailed => "Image analysis failed: " ^^ msg
  | FrameFailed => "Frame at 0s: [analysis failed]"
  end.

Definition errorTagged (tags : list string) : bool :=
  existsb (fun tag => Js.includes tag "error") tags.

(** The stored [derived] of the item carries a summary and an error tag. *)
Definition degraded (s' : State) (ev : EvidenceItem) : Prop :=
  forall e, In e (evidence_items (db s')) -> ev_id e = ev_id ev ->
    exists text tags,
      derivedSummary e = Some text /\ derivedTags e = Some tags
      /\ errorTagged tags = true.

(** The fusion call answers: it neither rejects nor returns unparsable
    JSON. *)
Definition fusionAnswers (r : Reply FusionJson) : Prop :=
  match r with
  | CallFails _ | BadJson _ _ => False
  | NoJson _ | Json _ _ => True
  end.

(** An array of objects. *)
Definition arrayOfObjects {A} (v : Arrayish A) : Prop :=
  match v with
  | Elements items => ~ In None items
  | NotArray => False
  end.

(** Where a parsed reply holds the field that [run] maps over, the field is
    an array of objects.  Rejected calls, replies without JSON and replies
    that do not parse are all shaped. *)
Definition timelineShaped (r : Reply FusionJson) : Prop :=
  match r with
  | Json _ parsed =>
      match fj_timeline parsed with
      | Some events => ~ In None events
      | None => True
      end
  | _ => True
  end.

Definition contradictionsShaped (r : Reply ContradictionJson) : Prop :=
  match r with
  | Json _ parsed =>
      match cj_contradictions parsed with
      | Some v => arrayOfObjects v
      | None => True
      end
  | _ => True
  end.

Definition scenariosShaped (r : Reply ScenarioJson) : Prop :=
  match r with
  | Json _ parsed =>
      match sj_scenarios parsed with
      | Some v => arrayOfObjects v
      | None => True
      end
  | _ => True
  end.

Definition wellShaped (env : Env) : Prop :=
  (forall t es, timelineShaped (fusionReply env t es))
  /\ (forall t tl es ws, contradictionsShaped (contradictionReply env t tl es ws))
  /\ (forall t wm tl cs, scenariosShaped (scenarioReply env t wm tl cs)).

(** *** Worlds for the concrete cases *)

Module Cases.
Import Demo.

(** The model returns a world model but no timeline event; contradiction
    detection and scenario generation both fail. *)
Definition emptyTimeline : Env :=
  world 0 (fun _ => summaryJson) (fusionJson (Some []))
        (CallFails "503 Service Unavailable") (CallFails "503 Service Unavailable").

(** The fusion call is rejected. *)
Definition fusionDown : Env :=
  world 0 (fun _ => summaryJson) (CallFails "quota exceeded")
        (CallFails "503 Service Unavailable") (CallFails "503 Service Unavailable").

(** Every summary call is rejected; the video has one frame. *)
Definition summariesDown : Env :=
  world 1 (fun _ => CallFails "quota exceeded") (fusionJson (Some []))
        (CallFails "503 Service Unavailable") (CallFails "503 Service Unavailable").

(** A full analysis: two events, six contradictions, three scenarios. *)
Definition full : Env :=
  world 2 (fun _ => summaryJson)
        (fusionJson (Some [event "enters" 0 5; event "leaves" 5 20]))
        (Json "{...}"
           (mkContradictionJson
              (Some (Elements (map Some (map contradiction (seq 0 6))))) None))
        (Json "{...}"
           (mkScenarioJson
              (Some (Elements [Some (scenario "A" (3 # 10)); Some (scenario "B" (6 # 10));
                               Some (scenario "C" (6 # 10))]))
              None)).

(** As [full], but the scenario reply holds a sentence where the array of
    scenarios should be. *)
Definition scenariosMisshapen : Env :=
  world 2 (fun _ => summaryJson)
        (fusionJson (Some [event "enters" 0 5; event "leaves" 5 20]))
        (Json "{...}"
           (mkContradictionJson
              (Some (Elements (map Some (map contradiction (seq 0 6))))) None))
        (Json "{...}" (mkScenarioJson (Some NotArray) None)).

(** As [full], but the second contradiction of the reply is [null]. *)
Definition contradictionNull : Env :=
  world 2 (fun _ => summaryJson)
        (fusionJson (Some [event "enters" 0 5; event "leaves" 5 20]))
        (Json "{...}"
           (mkContradictionJson
              (Some (Elements [Some (contradiction 0); None])) None))
        (CallFails "503 Service Unavailable").

(** The state that a first, completed analysis of the case leaves. *)
Definition analysed : State :=
  snd (run full caseId (start [clip; statement])).

(** The video is forty seconds long. *)
Definition longVideo : Env :=
  world 40 (fun _ => summaryJson) (fusionJson (Some []))
        (CallFails "503 Service Unavailable") (CallFails "503 Service Unavailable").

Definition clipPath : string := "./uploads/case-1/clip.mp4".
Definition statementPath : string := "./uploads/case-1/statement.txt".

End Cases.
(* ================================================================== *)
(** * Properties *)

(** ** Key-frame selection *)

Lemma sorted_nth_earlier : forall l : list FrameEvidence,
  StronglySorted earlier l ->
  forall i j a b,
    i < j -> nth_error l i = Some a -> nth_error l j = Some b -> earlier a b.
Proof.
  induction 1 as [|x l Hs IH Hall]; intros i j a b Hij Ha Hb.
  - destruct i; discriminate.
  - destruct j as [|j]; [lia|]. simpl in Hb.
    destruct i as [|i]; simpl in Ha.
    + injection Ha as <-. rewrite Forall_forall in Hall.
      apply Hall. eapply nth_error_In; eauto.
    + apply (IH i j); auto; lia.
Qed.

Section KeyFrames.

Variable frames : list FrameEvidence.
Variables step maxFrames : nat.
Hypothesis step_pos : 1 <= step.

(** [length frames] iterations exhaust the loop: more fuel changes nothing. *)
Lemma keyFrameLoop_fuel : forall fuel k i result,
  length frames - 1 <= i + fuel ->
  keyFrameLoop (fuel + k) frames step maxFrames i result
  = keyFrameLoop fuel frames step maxFrames i result.
Proof.
  induction fuel as [|fuel IH]; intros k i result Hle; simpl.
  - destruct k; simpl; [reflexivity|].
    destruct (Nat.ltb_spec i (length frames - 1)); [lia | reflexivity].
  - destruct (Nat.ltb_spec i (length frames - 1)); [|reflexivity].
    apply IH. lia.
Qed.

(** The loop only appends. *)
Lemma keyFrameLoop_prefix : forall fuel i result,
  exists extra, keyFrameLoop fuel frames step maxFrames i result = result ++ extra.
Proof.
  induction fuel as [|fuel IH]; intros i result; simpl.
  - exists []. now rewrite app_nil_r.
  - destruct (i <? length frames - 1).
    + destruct (length result <? maxFrames - 1).
      * destruct (nth_error frames i) as [f|].
        -- destruct (IH (i + step) (result ++ [f])) as [extra ->].
           exists ([f] ++ extra). now rewrite app_assoc.
        -- apply IH.
      * apply IH.
    + exists []. now rewrite app_nil_r.
Qed.

Lemma keyFrameLoop_length_le : forall fuel i result,
  length result <= maxFrames - 1 ->
  length (keyFrameLoop fuel frames step maxFrames i result) <= maxFrames - 1.
Proof.
  induction fuel as [|fuel IH]; intros i result Hlen; simpl; [exact Hlen|].
  destruct (i <? length frames - 1); [|exact Hlen].
  apply IH.
  destruct (Nat.ltb_spec (length result) (maxFrames - 1)); [|exact Hlen].
  destruct (nth_error frames i); [|exact Hlen].
  rewrite length_app; simpl; lia.
Qed.

(** With [k] more candidate indices below the last frame, the loop pushes
    [k] frames or fills the result up to [maxFrames - 1]. *)
Lemma keyFrameLoop_length_ge : forall k fuel i result,
  k <= fuel ->
  (1 <= k -> i + (k - 1) * step < length frames - 1) ->
  Nat.min (length result + k) (maxFrames - 1)
  <= length (keyFrameLoop fuel frames step maxFrames i result)
     + (length result - (maxFrames - 1)).
Proof.
  induction k as [|k IH]; intros fuel i result Hfuel Hidx.
  - destruct (keyFrameLoop_prefix fuel i result) as [extra ->].
    rewrite length_app. lia.
  - destruct fuel as [|fuel]; [lia|]. simpl.
    assert (Hi : i < length frames - 1) by (specialize (Hidx ltac:(lia)); lia).
    destruct (Nat.ltb_spec i (length frames - 1)); [|lia].
    assert (Hnext : 1 <= k -> i + step + (k - 1) * step < length frames - 1).
    { intros Hk. specialize (Hidx ltac:(lia)).
      replace (S k - 1) with (S (k - 1)) in Hidx by lia. simpl in Hidx. lia. }
    destruct (Nat.ltb_spec (length result) (maxFrames - 1)).
    + destruct (nth_error frames i) as [f|] eqn:Hnth.
      * specialize (IH fuel (i + step) (result ++ [f]) ltac:(lia) Hnext).
        rewrite length_app in IH. simpl in IH. lia.
      * apply nth_error_None in Hnth. lia.
    + specialize (IH fuel (i + step) result ltac:(lia) Hnext). lia.
Qed.

Hypothesis frames_sorted : framesIncreasing frames.

Lemma frames_nth_earlier : forall i j a b,
  i < j -> nth_error frames i = Some a -> nth_error frames j = Some b -> earlier a b.
Proof. apply sorted_nth_earlier, frames_sorted. Qed.

Lemma sorted_snoc : forall (l : list FrameEvidence) x,
  StronglySorted earlier l -> Forall (fun a => earlier a x) l ->
  StronglySorted earlier (l ++ [x]).
Proof.
  induction l as [|a l IH]; intros x Hs Hall; simpl.
  - constructor; constructor.
  - inversion Hs; subst. inversion Hall; subst.
    constructor; [now apply IH|].
    apply Forall_app; split; [assumption|]. now constructor.
Qed.

Lemma below_earlier : forall i result f,
  below frames i result -> nth_error frames i = Some f ->
  Forall (fun a => earlier a f) result.
Proof.
  intros i result f Hb Hf. unfold below in Hb.
  rewrite Forall_forall in *. intros a Ha.
  destruct (Hb a Ha) as (j & Hji & _ & Hj).
  eapply frames_nth_earlier; eauto.
Qed.

Lemma keyFrameLoop_sorted : forall fuel i result,
  StronglySorted earlier result -> below frames i result ->
  StronglySorted earlier (keyFrameLoop fuel frames step maxFrames i result)
  /\ below frames (length frames - 1) (keyFrameLoop fuel frames step maxFrames i result).
Proof.
  induction fuel as [|fuel IH]; intros i result Hs Hb; simpl.
  - split; [assumption|].
    eapply Forall_impl; [|exact Hb]. intros f (j & ? & ? & ?). exists j; auto.
  - destruct (Nat.ltb_spec i (length frames - 1)) as [Hi|Hi].
    + assert (Hb' : below frames (i + step) result).
      { eapply Forall_impl; [|exact Hb]. intros f (j & ? & ? & ?).
        exists j; repeat split; auto; lia. }
      destruct (length result <? maxFrames - 1); [|now apply IH].
      destruct (nth_error frames i) as [f|] eqn:Hnth; [|now apply IH].
      apply IH.
      * apply sorted_snoc; [assumption|]. now apply (below_earlier i).
      * apply Forall_app; split; [assumption|].
        constructor; [|constructor]. exists i; repeat split; auto; lia.
    + split; [assumption|].
      eapply Forall_impl; [|exact Hb]. intros f (j & ? & ? & ?). exists j; auto.
Qed.

End KeyFrames.

Lemma nth_error_last : forall (l : list FrameEvidence) d,
  l <> [] -> nth_error l (length l - 1) = Some (last l d).
Proof.
  induction l as [|a l IH]; intros d Hne; [congruence|].
  destruct l as [|b l]; [reflexivity|].
  replace (length (a :: b :: l) - 1) with (S (length (b :: l) - 1)) by (simpl; lia).
  change (nth_error (b :: l) (length (b :: l) - 1) = Some (last (b :: l) d)).
  apply IH. discriminate.
Qed.

(** Down-sampling of a long frame list in increasing time order. *)
Lemma selectKeyFrames_increasing_input : forall frames : list FrameEvidence,
  framesIncreasing frames ->
  30 < length frames ->
  let selected := framesToAnalyze frames in
  selected = selectKeyFrames frames 15
  /\ (exists f, nth_error frames 0 = Some f /\ nth_error selected 0 = Some f)
  /\ (exists f, nth_error frames (length frames - 1) = Some f
                /\ nth_error selected (length selected - 1) = Some f)
  /\ length selected <= 15
  /\ framesIncreasing selected
  /\ (length frames = 40 -> length selected = 15).
Proof.
  intros frames Hsorted Hlen selected.
  assert (Hsel : selected = selectKeyFrames frames 15).
  { unfold selected, framesToAnalyze.
    destruct (Nat.ltb_spec 30 (length frames)); [reflexivity | lia]. }
  split; [exact Hsel|]. rewrite Hsel. clear selected Hsel.
  unfold selectKeyFrames.
  destruct (Nat.leb_spec (length frames) 15); [lia|].
  destruct frames as [|first rest] eqn:Hframes; [simpl in Hlen; lia|].
  rewrite <- Hframes in *.
  destruct (Nat.ltb_spec 1 (length frames)); [|lia].
  remember (length frames / 15) as step eqn:Hstepdef.
  assert (Hstep : 2 <= step).
  { subst step. apply Nat.div_le_lower_bound; lia. }
  assert (Hstep1 : 1 <= step) by lia.
  remember (keyFrameLoop (length frames) frames step 15 step [first]) as looped
    eqn:Hlooped.
  destruct (keyFrameLoop_prefix frames step 15 (length frames) step [first])
    as [extra Hprefix].
  rewrite <- Hlooped in Hprefix.
  assert (Hle : length looped <= 14).
  { subst looped. apply (keyFrameLoop_length_le frames step 15 Hstep1). simpl; lia. }
  assert (Hfirst : nth_error frames 0 = Some first) by (now rewrite Hframes).
  assert (Hlast : nth_error frames (length frames - 1) = Some (last frames first)).
  { apply nth_error_last. rewrite Hframes. discriminate. }
  destruct (keyFrameLoop_sorted frames step 15 Hstep1 Hsorted
              (length frames) step [first]) as [Hs Hb].
  { repeat constructor. }
  { constructor; [|constructor]. exists 0. repeat split; auto; lia. }
  rewrite <- Hlooped in Hs, Hb.
  repeat split.
  - exists first. split; [assumption|]. rewrite Hprefix. reflexivity.
  - exists (last frames first). split; [assumption|].
    rewrite length_app. simpl.
    replace (length looped + 1 - 1) with (length looped) by lia.
    rewrite nth_error_app2 by lia. now rewrite Nat.sub_diag.
  - rewrite length_app. simpl. lia.
  - apply sorted_snoc; [assumption|].
    apply (below_earlier frames Hsorted (length frames - 1)); assumption.
  - intros H40. rewrite length_app. simpl.
    assert (Hstep2 : step = 2) by (subst step; rewrite H40; reflexivity).
    assert (Hge := keyFrameLoop_length_ge frames step 15 Hstep1 13 (length frames)
                     step [first]).
    rewrite <- Hlooped in Hge. simpl in Hge.
    specialize (Hge ltac:(lia) ltac:(lia)). lia.
Qed.

(* ================================================================== *)
(** ** Reasoning about the monad *)

Lemma bind_ok : forall A B (m : M A) (k : A -> M B) s a s1,
  m s = (Ok a, s1) -> bind m k s = k a s1.
Proof. intros. unfold bind. now rewrite H. Qed.

Section Keeps.

Variable R : State -> State -> Prop.
Hypothesis R_refl : forall s, R s s.
Hypothesis R_trans : forall s1 s2 s3, R s1 s2 -> R s2 s3 -> R s1 s3.

Lemma keeps_ret : forall A (a : A), keeps R (ret a).
Proof. intros A a s r s' H. injection H as _ <-. apply R_refl. Qed.

Lemma keeps_throw : forall A e, keeps R (@throw A e).
Proof. intros A e s r s' H. injection H as _ <-. apply R_refl. Qed.

Lemma keeps_await : forall A (x : result A), keeps R (await x).
Proof. intros A x s r s' H. injection H as _ <-. apply R_refl. Qed.

Lemma keeps_getDb : keeps R getDb.
Proof. intros s r s' H. injection H as _ <-. apply R_refl. Qed.

Lemma keeps_bind : forall A B (m : M A) (k : A -> M B),
  keeps R m -> (forall a, keeps R (k a)) -> keeps R (bind m k).
Proof.
  intros A B m k Hm Hk s r s' H. unfold bind in H.
  destruct (m s) as [[a|e] s1] eqn:E.
  - eapply R_trans; [eapply Hm; eauto | eapply Hk; eauto].
  - injection H as _ <-. eapply Hm; eauto.
Qed.

Lemma keeps_tryCatch : forall A (body : M A) handler,
  keeps R body -> (forall e, keeps R (handler e)) -> keeps R (tryCatch body handler).
Proof.
  intros A body handler Hb Hh s r s' H. unfold tryCatch in H.
  destruct (body s) as [[a|e] s1] eqn:E.
  - injection H as _ <-. eapply Hb; eauto.
  - eapply R_trans; [eapply Hb; eauto | eapply Hh; eauto].
Qed.

Lemma keeps_forEach : forall A (body : A -> M unit) l,
  (forall x, keeps R (body x)) -> keeps R (forEach l body).
Proof.
  intros A body l Hb. induction l as [|x l IH]; simpl.
  - apply keeps_ret.
  - apply keeps_bind; auto.
Qed.

Lemma keeps_mapM : forall A B (f : A -> M B) l,
  (forall x, keeps R (f x)) -> keeps R (mapM f l).
Proof.
  intros A B f l Hf. induction l as [|x l IH]; simpl.
  - apply keeps_ret.
  - apply keeps_bind; [apply Hf|]. intros y.
    apply keeps_bind; [apply IH|]. intros ys. apply keeps_ret.
Qed.

Lemma keeps_mapMi : forall A B (f : nat -> A -> M B) l i,
  (forall i x, keeps R (f i x)) -> keeps R (mapMi f i l).
Proof.
  intros A B f l i Hf. revert i. induction l as [|x l IH]; intros i; simpl.
  - apply keeps_ret.
  - apply keeps_bind; [apply Hf|]. intros y.
    apply keeps_bind; [apply IH|]. intros ys. apply keeps_ret.
Qed.

End Keeps.

Lemma total_ret : forall A (a : A), total (ret a).
Proof. intros A a s. now exists a, s. Qed.

Lemma total_bind : forall A B (m : M A) (k : A -> M B),
  total m -> (forall a, total (k a)) -> total (bind m k).
Proof.
  intros A B m k Hm Hk s. destruct (Hm s) as (a & s1 & E).
  destruct (Hk a s1) as (b & s2 & E2). exists b, s2.
  now rewrite (bind_ok _ _ _ _ _ _ _ E).
Qed.

Lemma total_tryCatch : forall A (body : M A) handler,
  (forall e, total (handler e)) -> total (tryCatch body handler).
Proof.
  intros A body handler Hh s. unfold tryCatch.
  destruct (body s) as [[a|e] s1]; [now exists a, s1 | apply Hh].
Qed.

Lemma total_forEach : forall A (body : A -> M unit) l,
  (forall x, total (body x)) -> total (forEach l body).
Proof.
  intros A body l Hb. induction l as [|x l IH]; simpl.
  - apply total_ret.
  - apply total_bind; auto.
Qed.

Lemma total_mapM : forall A B (f : A -> M B) l,
  (forall x, total (f x)) -> total (mapM f l).
Proof.
  intros A B f l Hf. induction l as [|x l IH]; simpl.
  - apply total_ret.
  - apply total_bind; [apply Hf|]. intros y.
    apply total_bind; [apply IH|]. intros ys. apply total_ret.
Qed.

Lemma total_getDb : total getDb.
Proof. intros s. now exists (db s), s. Qed.

Lemma total_putDb : forall d, total (putDb d).
Proof. intros d s. unfold putDb. eauto. Qed.

Lemma total_uuidv4 : total uuidv4.
Proof. intros s. unfold uuidv4. eauto. Qed.

Lemma total_tick : total tick.
Proof. intros s. unfold tick. eauto. Qed.

Lemma total_record : forall c, total (record c).
Proof. intros c s. unfold record. eauto. Qed.

Lemma total_emitProgress : forall p, total (emitProgress p).
Proof. intros p s. unfold emitProgress. eauto. Qed.

(** Structural decomposition of a [total] goal. *)
Ltac total_step :=
  lazymatch goal with
  | |- total (bind _ _) => apply total_bind; [|intros ?]
  | |- total (tryCatch _ _) => apply total_tryCatch; intros ?
  | |- total (ret _) => apply total_ret
  | |- total (forEach _ _) => apply total_forEach; intros ?
  | |- total (mapM _ _) => apply total_mapM; intros ?
  | |- total getDb => apply total_getDb
  | |- total (putDb _) => apply total_putDb
  | |- total uuidv4 => apply total_uuidv4
  | |- total tick => apply total_tick
  | |- total (record _) => apply total_record
  | |- total (emitProgress _) => apply total_emitProgress
  | |- total (if ?b then _ else _) => destruct b
  | |- total (match ?x with _ => _ end) => destruct x
  | |- total (let _ := _ in _) => cbv zeta
  end.

Create HintDb pipeline discriminated.

Ltac total_auto := repeat (total_step || (progress auto with pipeline)).

(** *** [quiet] is a preorder kept by every primitive but [emitProgress],
    [insertOrReplaceAnalysis] and [setCaseStatus] *)

Lemma sameTables_refl : forall s, sameTables s s.
Proof. intros s. unfold sameTables. auto. Qed.

Lemma sameTables_trans : forall s1 s2 s3,
  sameTables s1 s2 -> sameTables s2 s3 -> sameTables s1 s3.
Proof.
  unfold sameTables. intros s1 s2 s3 (A1 & C1 & E1 & U1) (A2 & C2 & E2 & U2).
  repeat split; try congruence. lia.
Qed.

Lemma quiet_refl : forall s, quiet s s.
Proof. intros s. split; [reflexivity | apply sameTables_refl]. Qed.

Lemma quiet_trans : forall s1 s2 s3, quiet s1 s2 -> quiet s2 s3 -> quiet s1 s3.
Proof.
  intros s1 s2 s3 [E1 T1] [E2 T2]. split; [congruence|].
  eapply sameTables_trans; eauto.
Qed.

Lemma quiet_uuidv4 : keeps quiet uuidv4.
Proof.
  intros s r s' H. injection H as _ <-.
  unfold quiet, sameTables; simpl. repeat split; auto.
Qed.

Lemma quiet_tick : keeps quiet tick.
Proof.
  intros s r s' H. injection H as _ <-.
  unfold quiet, sameTables; simpl. repeat split; auto.
Qed.

Lemma quiet_record : forall c, keeps quiet (record c).
Proof.
  intros c s r s' H. injection H as _ <-.
  unfold quiet, sameTables; simpl. repeat split; auto.
Qed.

Lemma quiet_getEvidenceByCase : forall caseId, keeps quiet (getEvidenceByCase caseId).
Proof.
  intros caseId s r s' H. unfold getEvidenceByCase, bind, getDb, ret in H.
  injection H as _ <-. apply quiet_refl.
Qed.

Lemma quiet_getFramesByEvidence : forall id, keeps quiet (getFramesByEvidence id).
Proof.
  intros id s r s' H. unfold getFramesByEvidence, bind, getDb, ret in H.
  injection H as _ <-. apply quiet_refl.
Qed.

Lemma quiet_updateEvidenceDerived : forall id dv,
  keeps quiet (updateEvidenceDerived id dv).
Proof.
  intros id dv s r s' H. unfold updateEvidenceDerived, bind, getDb, putDb in H.
  injection H as _ <-. unfold quiet, sameTables; simpl.
  repeat split; auto. rewrite map_map. apply map_ext.
  intros e. now destruct (String.eqb (ev_id e) id).
Qed.

Lemma quiet_insertFrame : forall f, keeps quiet (insertFrame f).
Proof.
  intros f s r s' H. unfold insertFrame, bind, getDb, putDb in H.
  injection H as _ <-. unfold quiet, sameTables; simpl. repeat split; auto.
Qed.

Lemma quiet_updateFrameDerived : forall id dv, keeps quiet (updateFrameDerived id dv).
Proof.
  intros id dv s r s' H. unfold updateFrameDerived, bind, getDb, putDb in H.
  injection H as _ <-. unfold quiet, sameTables; simpl. repeat split; auto.
Qed.

Lemma total_getEvidenceByCase : forall caseId, total (getEvidenceByCase caseId).
Proof. intros. unfold getEvidenceByCase. total_auto. Qed.

Lemma total_getFramesByEvidence : forall id, total (getFramesByEvidence id).
Proof. intros. unfold getFramesByEvidence. total_auto. Qed.

Lemma total_updateEvidenceDerived : forall id dv, total (updateEvidenceDerived id dv).
Proof. intros. unfold updateEvidenceDerived. total_auto. Qed.

Lemma total_insertFrame : forall f, total (insertFrame f).
Proof. intros. unfold insertFrame. total_auto. Qed.

Lemma total_updateFrameDerived : forall id dv, total (updateFrameDerived id dv).
Proof. intros. unfold updateFrameDerived. total_auto. Qed.

#[export] Hint Resolve total_getEvidenceByCase total_getFramesByEvidence
  total_updateEvidenceDerived total_insertFrame total_updateFrameDerived : pipeline.

#[export] Hint Resolve quiet_uuidv4 quiet_tick quiet_record quiet_getEvidenceByCase
  quiet_getFramesByEvidence quiet_updateEvidenceDerived quiet_insertFrame
  quiet_updateFrameDerived : pipeline.

(** Structural decomposition of a [keeps quiet] goal. *)
Ltac quiet_step :=
  lazymatch goal with
  | |- keeps quiet (bind _ _) =>
      apply (keeps_bind quiet quiet_trans); [|intros ?]
  | |- keeps quiet (tryCatch _ _) =>
      apply (keeps_tryCatch quiet quiet_trans); [|intros ?]
  | |- keeps quiet (ret _) => apply (keeps_ret quiet quiet_refl)
  | |- keeps quiet (throw _) => apply (keeps_throw quiet quiet_refl)
  | |- keeps quiet (await _) => apply (keeps_await quiet quiet_refl)
  | |- keeps quiet getDb => apply (keeps_getDb quiet quiet_refl)
  | |- keeps quiet (forEach _ _) =>
      apply (keeps_forEach quiet quiet_refl quiet_trans); intros ?
  | |- keeps quiet (mapM _ _) =>
      apply (keeps_mapM quiet quiet_refl quiet_trans); intros ?
  | |- keeps quiet (mapMi _ _ _) =>
      apply (keeps_mapMi quiet quiet_refl quiet_trans); intros ? ?
  | |- keeps quiet (if ?b then _ else _) => destruct b
  | |- keeps quiet (match ?x with _ => _ end) => destruct x
  | |- keeps quiet (let _ := _ in _) => cbv zeta
  end.

Ltac quiet_auto := repeat (quiet_step || (progress auto with pipeline)).

(* ================================================================== *)
(** ** The services below the orchestrator *)

Section Services.

Variable env : Env.

Lemma quiet_summarizeEvidence : forall e i t, keeps quiet (summarizeEvidence env e i t).
Proof.
  intros. unfold summarizeEvidence.
  apply (keeps_bind quiet quiet_trans); [auto with pipeline|]. intros n.
  quiet_auto.
Qed.

Lemma quiet_transcribeAudio : forall a m, keeps quiet (transcribeAudio env a m).
Proof.
  intros. unfold transcribeAudio.
  apply (keeps_bind quiet quiet_trans); [auto with pipeline|]. intros n.
  quiet_auto.
Qed.

Lemma quiet_fuseEvidence : forall l, keeps quiet (fuseEvidence env l).
Proof.
  intros. unfold fuseEvidence.
  destruct (length l =? 0); [quiet_auto|].
  apply (keeps_bind quiet quiet_trans); [auto with pipeline|]. intros _.
  apply (keeps_bind quiet quiet_trans); [auto with pipeline|]. intros n.
  quiet_auto.
Qed.

Lemma quiet_detectContradictions : forall tl es ws,
  keeps quiet (detectContradictions env tl es ws).
Proof.
  intros. unfold detectContradictions.
  apply (keeps_bind quiet quiet_trans); [auto with pipeline|]. intros _.
  apply (keeps_bind quiet quiet_trans); [auto with pipeline|]. intros n.
  quiet_auto.
Qed.

Lemma quiet_generateScenarios : forall wm tl cs,
  keeps quiet (generateScenarios env wm tl cs).
Proof.
  intros. unfold generateScenarios.
  apply (keeps_bind quiet quiet_trans); [auto with pipeline|]. intros _.
  apply (keeps_bind quiet quiet_trans); [auto with pipeline|]. intros n.
  quiet_auto.
Qed.

Lemma total_detectContradictions : forall tl es ws,
  total (detectContradictions env tl es ws).
Proof.
  intros. unfold detectContradictions.
  apply total_bind; [auto using total_record|]. intros _.
  apply total_bind; [apply total_tick|]. intros n.
  total_auto.
Qed.

Lemma total_generateScenarios : forall wm tl cs,
  total (generateScenarios env wm tl cs).
Proof.
  intros. unfold generateScenarios.
  apply total_bind; [auto using total_record|]. intros _.
  apply total_bind; [apply total_tick|]. intros n.
  total_auto.
Qed.

Lemma quiet_extractFrames : forall p c e n, keeps quiet (extractFrames env p c e n).
Proof. intros. unfold extractFrames. quiet_auto. Qed.

Lemma quiet_generateReconstruction : forall c sc v ty d,
  keeps quiet (generateReconstruction env c sc v ty d).
Proof.
  intros. unfold generateReconstruction.
  apply (keeps_bind quiet quiet_trans); [auto with pipeline|]. intros id.
  apply (keeps_bind quiet quiet_trans); [auto with pipeline|]. intros n.
  quiet_auto.
Qed.

Lemma total_generateReconstruction : forall c sc v ty d,
  total (generateReconstruction env c sc v ty d).
Proof.
  intros. unfold generateReconstruction.
  apply total_bind; [apply total_uuidv4|]. intros id.
  apply total_bind; [apply total_tick|]. intros n.
  total_auto.
Qed.

Hint Resolve quiet_summarizeEvidence quiet_transcribeAudio quiet_fuseEvidence
  quiet_detectContradictions quiet_generateScenarios quiet_extractFrames
  quiet_generateReconstruction total_detectContradictions total_generateScenarios
  total_generateReconstruction : pipeline.

Lemma quiet_analyzeVideoFrame : forall f e, keeps quiet (analyzeVideoFrame env f e).
Proof. intros. unfold analyzeVideoFrame. quiet_auto. Qed.

Lemma total_analyzeVideoFrame : forall f e, total (analyzeVideoFrame env f e).
Proof. intros. unfold analyzeVideoFrame. total_auto. Qed.

Hint Resolve quiet_analyzeVideoFrame total_analyzeVideoFrame : pipeline.

Lemma quiet_processVideo : forall e p r, keeps quiet (processVideo env e p r).
Proof. intros. unfold processVideo. quiet_auto. Qed.

Lemma quiet_processAudio : forall e p r, keeps quiet (processAudio env e p r).
Proof. intros. unfold processAudio. quiet_auto. Qed.

Lemma quiet_processText : forall e p r, keeps quiet (processText env e p r).
Proof. intros. unfold processText. quiet_auto. Qed.

Lemma quiet_processImage : forall e p r, keeps quiet (processImage env e p r).
Proof. intros. unfold processImage. quiet_auto. Qed.

Lemma total_processVideo : forall e p r, total (processVideo env e p r).
Proof. intros. unfold processVideo. total_auto. Qed.

Lemma total_processAudio : forall e p r, total (processAudio env e p r).
Proof. intros. unfold processAudio. total_auto. Qed.

Lemma total_processText : forall e p r, total (processText env e p r).
Proof. intros. unfold processText. total_auto. Qed.

Lemma total_processImage : forall e p r, total (processImage env e p r).
Proof. intros. unfold processImage. total_auto. Qed.

Hint Resolve quiet_processVideo quiet_processAudio quiet_processText
  quiet_processImage total_processVideo total_processAudio total_processText
  total_processImage : pipeline.

Lemma quiet_processEvidence : forall e p, keeps quiet (processEvidence env e p).
Proof. intros. unfold processEvidence, when. quiet_auto. Qed.

(** [processEvidence] returns from every state: each failing step sits in a
    [try] whose handler only writes the degraded [derived]. *)
Lemma total_processEvidence : forall e p, total (processEvidence env e p).
Proof. intros. unfold processEvidence, when. total_auto. Qed.

End Services.

#[export] Hint Resolve quiet_summarizeEvidence quiet_transcribeAudio quiet_fuseEvidence
  quiet_detectContradictions quiet_generateScenarios quiet_extractFrames
  quiet_generateReconstruction total_detectContradictions total_generateScenarios
  total_generateReconstruction quiet_processEvidence total_processEvidence : pipeline.

(** The frames that [extractFrames] builds at an interval of one second are
    numbered by their index, hence in increasing time order. *)
Lemma mapMi_times : forall (f : nat -> string -> M FrameEvidence) files i s ys s',
  (forall index file st y st', f index file st = (Ok y, st') -> timeSeconds y = index) ->
  mapMi f i files s = (Ok ys, s') ->
  map timeSeconds ys = seq i (length files).
Proof.
  intros f files. induction files as [|file files IH]; intros i s ys s' Hf E; simpl in E.
  - injection E as <- _. reflexivity.
  - unfold bind in E. destruct (f i file s) as [[y|e] s1] eqn:E1; [|discriminate].
    destruct (mapMi f (S i) files s1) as [[zs|e] s2] eqn:E2; [|discriminate].
    injection E as <- _. simpl. f_equal; [eapply Hf; eauto | eapply IH; eauto].
Qed.

Lemma times_seq_increasing : forall (l : list FrameEvidence) i n,
  map timeSeconds l = seq i n -> framesIncreasing l.
Proof.
  induction l as [|a l IH]; intros i n H; [constructor|].
  destruct n as [|n]; [discriminate|]. simpl in H. injection H as Ha Hl.
  constructor; [eapply IH; eauto|].
  apply Forall_forall. intros b Hb. unfold earlier. rewrite Ha.
  assert (Hin : In (timeSeconds b) (seq (S i) n)) by (rewrite <- Hl; now apply in_map).
  apply in_seq in Hin. lia.
Qed.

Lemma extractFrames_increasing : forall env videoPath caseId evidenceId s r s',
  extractFrames env videoPath caseId evidenceId 1 s = (Ok r, s') ->
  framesIncreasing (frames r) /\ totalFrames r = length (frames r).
Proof.
  intros env videoPath caseId evidenceId s r s' E.
  unfold extractFrames, bind, tick, await in E.
  destruct (ffmpegFrames env (clock s) videoPath) as [files|msg]; [|discriminate].
  match type of E with
  | context [mapMi ?f 0 files ?st] =>
      destruct (mapMi f 0 files st) as [[ys|e] s1] eqn:Emap; [|discriminate]
  end.
  injection E as <- _. simpl. split; [|reflexivity].
  eapply times_seq_increasing, mapMi_times; [|exact Emap].
  intros index file st y st' Hy. unfold bind, uuidv4, ret in Hy.
  injection Hy as <- _. simpl. lia.
Qed.

(** C3.  For every video whose extracted frame list has more than 30
    frames, the frames chosen for analysis (with [maxFrames = 15]) include
    the first and the last extracted frame, are at most 15, and are in
    strictly increasing [timeSeconds]; for 40 frames exactly 15 are chosen. *)
Theorem selectKeyFrames_long_video :
  forall env videoPath caseId evidenceId s r s',
    extractFrames env videoPath caseId evidenceId 1 s = (Ok r, s') ->
    30 < length (frames r) ->
    let selected := framesToAnalyze (frames r) in
    selected = selectKeyFrames (frames r) 15
    /\ (exists f, nth_error (frames r) 0 = Some f /\ nth_error selected 0 = Some f)
    /\ (exists f, nth_error (frames r) (length (frames r) - 1) = Some f
                  /\ nth_error selected (length selected - 1) = Some f)
    /\ length selected <= 15
    /\ framesIncreasing selected
    /\ (length (frames r) = 40 -> length selected = 15).
Proof.
  intros env videoPath caseId evidenceId s r s' E Hlen.
  apply selectKeyFrames_increasing_input; [|exact Hlen].
  eapply extractFrames_increasing; eauto.
Qed.

Lemma selectKeyFrames_long_video_witness :
  exists r s',
    extractFrames Cases.longVideo Cases.clipPath Demo.caseId "ev-2" 1
      (Demo.start [Demo.clip]) = (Ok r, s')
    /\ length (frames r) = 40
    /\ map timeSeconds (framesToAnalyze (frames r))
       = [0; 2; 4; 6; 8; 10; 12; 14; 16; 18; 20; 22; 24; 26; 39]
    /\ length (framesToAnalyze (frames r)) = 15
    /\ framesIncreasing (framesToAnalyze (frames r)).
Proof.
  destruct (extractFrames Cases.longVideo Cases.clipPath Demo.caseId "ev-2" 1
              (Demo.start [Demo.clip])) as [[r|e] s'] eqn:E;
    [|exfalso; vm_compute in E; discriminate E].
  assert (H40 : length (frames r) = 40).
  { vm_compute in E. injection E as <- _. reflexivity. }
  assert (Htimes : map timeSeconds (framesToAnalyze (frames r))
                   = [0; 2; 4; 6; 8; 10; 12; 14; 16; 18; 20; 22; 24; 26; 39]).
  { vm_compute in E. injection E as <- _. vm_compute. reflexivity. }
  exists r, s'.
  destruct (selectKeyFrames_long_video _ _ _ _ _ _ _ E ltac:(lia))
    as (_ & _ & _ & _ & Hinc & Hexact).
  repeat split; auto.
Defined.

(* ================================================================== *)
(** ** Outcome rules *)

Lemma post_bind : forall A B (m : M A) (k : A -> M B) s Q,
  post m s (fun r s1 => match r with
                        | Ok a => post (k a) s1 Q
                        | Throw e => Q (Throw e) s1
                        end) ->
  post (bind m k) s Q.
Proof.
  intros A B m k s Q H r s' E. unfold bind in E.
  destruct (m s) as [[a|e] s1] eqn:Em.
  - exact (H _ _ Em _ _ E).
  - injection E as <- <-. exact (H _ _ Em).
Qed.

Lemma post_tryCatch : forall A (body : M A) handler s Q,
  post body s (fun r s1 => match r with
                           | Ok a => Q (Ok a) s1
                           | Throw e => post (handler e) s1 Q
                           end) ->
  post (tryCatch body handler) s Q.
Proof.
  intros A body handler s Q H r s' E. unfold tryCatch in E.
  destruct (body s) as [[a|e] s1] eqn:Eb.
  - injection E as <- <-. exact (H _ _ Eb).
  - exact (H _ _ Eb _ _ E).
Qed.

Lemma post_ret : forall A (a : A) s (Q : result A -> State -> Prop),
  Q (Ok a) s -> post (ret a) s Q.
Proof. intros A a s Q H r s' E. injection E as <- <-. exact H. Qed.

Lemma post_throw : forall A e s (Q : result A -> State -> Prop),
  Q (Throw e) s -> post (throw e) s Q.
Proof. intros A e s Q H r s' E. injection E as <- <-. exact H. Qed.

Lemma post_conseq : forall A (m : M A) s (P Q : result A -> State -> Prop),
  post m s P -> (forall r s', P r s' -> Q r s') -> post m s Q.
Proof. intros A m s P Q H HPQ r s' E. apply HPQ, H, E. Qed.

Lemma post_emit : forall p s (Q : result unit -> State -> Prop),
  (forall s1, advance [p] s s1 -> nextUuid s1 = nextUuid s -> Q (Ok tt) s1) ->
  post (emitProgress p) s Q.
Proof.
  intros p s Q H r s' E. injection E as <- <-. apply H; [|reflexivity].
  unfold advance, sameTables; simpl. repeat split; auto.
Qed.

Lemma post_quiet_total : forall A (m : M A) s (Q : result A -> State -> Prop),
  keeps quiet m -> total m -> (forall a s1, quiet s s1 -> Q (Ok a) s1) ->
  post m s Q.
Proof.
  intros A m s Q Hk Ht H r s' E. destruct (Ht s) as (a & s1 & E1).
  rewrite E1 in E. injection E as <- <-. apply H. eapply Hk; eauto.
Qed.

(** *** Stretches of progress events *)

Lemma good_nil : forall lo hi, good lo hi [].
Proof. intros. split; constructor. Qed.

Lemma good_cons : forall lo hi p L,
  status p = StRunning -> (lo <= progress p <= hi)%Z ->
  good (progress p) hi L -> good lo hi (p :: L).
Proof.
  intros lo hi p L Hst Hp [Hall Hs]. split.
  - constructor; [split; assumption|].
    eapply Forall_impl; [|exact Hall]. intros q [? ?]. split; [assumption | lia].
  - constructor; [assumption|].
    eapply Forall_impl; [|exact Hall]. intros q [? ?]. lia.
Qed.

Lemma good_weaken : forall lo hi lo' hi' L,
  good lo hi L -> (lo' <= lo)%Z -> (hi <= hi')%Z -> good lo' hi' L.
Proof.
  intros lo hi lo' hi' L [Hall Hs] Hlo Hhi. split; [|assumption].
  eapply Forall_impl; [|exact Hall]. intros q [? ?]. split; [assumption | lia].
Qed.

Lemma nondecreasing_app : forall L1 L2,
  nondecreasing L1 -> nondecreasing L2 ->
  (forall a b, In a L1 -> In b L2 -> (progress a <= progress b)%Z) ->
  nondecreasing (L1 ++ L2).
Proof.
  unfold nondecreasing. induction L1 as [|a L1 IH]; intros L2 H1 H2 Hcross; simpl.
  - assumption.
  - inversion H1; subst. constructor.
    + apply IH; auto. intros; apply Hcross; simpl; auto.
    + apply Forall_app; split; [assumption|].
      apply Forall_forall. intros b Hb. apply Hcross; simpl; auto.
Qed.

Lemma good_app : forall lo mid hi L1 L2,
  good lo mid L1 -> good mid hi L2 -> (lo <= mid <= hi)%Z -> good lo hi (L1 ++ L2).
Proof.
  intros lo mid hi L1 L2 [A1 S1] [A2 S2] Hb. split.
  - apply Forall_app; split.
    + eapply Forall_impl; [|exact A1]. intros q [? ?]. split; [assumption | lia].
    + eapply Forall_impl; [|exact A2]. intros q [? ?]. split; [assumption | lia].
  - apply nondecreasing_app; auto. intros a b Ha Hb'.
    rewrite Forall_forall in A1, A2.
    destruct (A1 a Ha) as [_ ?]. destruct (A2 b Hb') as [_ ?]. lia.
Qed.

Lemma advance_trans : forall L1 L2 s1 s2 s3,
  advance L1 s1 s2 -> advance L2 s2 s3 -> advance (L1 ++ L2) s1 s3.
Proof.
  intros L1 L2 s1 s2 s3 [E1 T1] [E2 T2]. split.
  - rewrite E2, E1. now rewrite app_assoc.
  - eapply sameTables_trans; eauto.
Qed.

Lemma advance_quiet : forall L s1 s2 s3,
  advance L s1 s2 -> quiet s2 s3 -> advance L s1 s3.
Proof.
  intros L s1 s2 s3 [E1 T1] [E2 T2]. split; [congruence|].
  eapply sameTables_trans; eauto.
Qed.

Lemma quiet_advance : forall s1 s2, quiet s1 s2 -> advance [] s1 s2.
Proof. intros s1 s2 [E T]. split; [now rewrite app_nil_r | assumption]. Qed.

(** *** Progress of the evidence loop *)

Lemma itemProgress_mono : forall i j n, i <= j -> (itemProgress i n <= itemProgress j n)%Z.
Proof.
  intros i j n Hij. unfold itemProgress. apply Qfloor_resp_le.
  apply Qmult_le_compat_r; [|discriminate].
  unfold Qdiv. apply Qmult_le_compat_r.
  - rewrite <- Zle_Qle. lia.
  - destruct n as [|n]; [discriminate|].
    apply Qinv_le_0_compat. change 0%Q with (inject_Z 0). rewrite <- Zle_Qle. lia.
Qed.

Lemma itemProgress_zero : forall n, itemProgress 0 n = 0%Z.
Proof.
  intros n. unfold itemProgress. simpl inject_Z at 1.
  apply Qfloor_comp with (y := 0%Q) . unfold Qdiv. ring.
Qed.

Lemma itemProgress_full : forall n, 0 < n -> itemProgress n n = 15%Z.
Proof.
  intros n Hn. unfold itemProgress.
  assert (E : (inject_Z (Z.of_nat n) / inject_Z (Z.of_nat n) * 15 == inject_Z 15)%Q).
  { field. change 0%Q with (inject_Z 0). rewrite inject_Z_injective. lia. }
  rewrite (Qfloor_comp _ _ E). apply Qfloor_Z.
Qed.

Lemma itemProgress_range : forall i n,
  i <= n -> 0 < n -> (0 <= itemProgress i n <= 15)%Z.
Proof.
  intros i n Hi Hn. rewrite <- (itemProgress_zero n) at 1.
  rewrite <- (itemProgress_full n Hn).
  split; apply itemProgress_mono; lia.
Qed.

(* ================================================================== *)
(** ** The orchestrator *)

Section Orchestrator.

Variable env : Env.
Variable caseId : string.

(** One iteration of the evidence loop returns, and emits running events
    whose progress goes from [itemProgress i n] to [itemProgress (i + 1) n]. *)
Lemma processItem_post : forall n i item s,
  post (processItem env caseId n i item) s
       (fun r s' => r = Ok tt
                    /\ exists L, advance L s s'
                                 /\ good (itemProgress i n) (itemProgress (i + 1) n) L).
Proof.
  intros n i item s. unfold processItem.
  assert (Hmono : (itemProgress i n <= itemProgress (i + 1) n)%Z)
    by (apply itemProgress_mono; lia).
  apply post_bind, post_emit. intros s1 H1 _.
  destruct (negb (existsSync env (filePathOf env item))).
  - apply post_emit. intros s2 H2 _. split; [reflexivity|].
    eexists. split; [eapply advance_trans; eauto|].
    simpl. apply good_cons; [reflexivity | simpl; lia |].
    apply good_cons; [reflexivity | simpl; lia | apply good_nil].
  - apply post_tryCatch.
    eapply post_conseq with
      (P := fun r s' =>
              r = Ok tt
              /\ exists L, advance L s s'
                           /\ good (itemProgress i n) (itemProgress (i + 1) n) L);
      [|intros r s' [-> H]; exact (conj eq_refl H)].
    apply post_bind.
    apply post_quiet_total; [auto with pipeline | auto with pipeline |].
    intros processResult s2 H2.
    apply post_bind.
    apply post_quiet_total; [auto with pipeline | auto with pipeline |].
    intros updatedItem s3 H3.
    assert (Hfinish : forall s4 L,
              advance L s1 s4 -> good (itemProgress (i + 1) n) (itemProgress (i + 1) n) L ->
              post (match ev_type item, res_frames processResult with
                    | Video, Some frames =>
                        emitProgress
                          (processing (i + 1) n item
                             ("Extracted " ^^ Js.showNat (length frames)
                              ^^ " frames from video. Analyzing key frames..."))
                    | _, _ => ret tt
                    end) s4
                   (fun r s' =>
                      r = Ok tt
                      /\ exists L0, advance L0 s s'
                                    /\ good (itemProgress i n) (itemProgress (i + 1) n) L0)).
    { intros s4 L H4 HL.
      assert (Hdone : forall s5 L', advance L' s4 s5 ->
                good (itemProgress (i + 1) n) (itemProgress (i + 1) n) L' ->
                exists L0, advance L0 s s5
                           /\ good (itemProgress i n) (itemProgress (i + 1) n) L0).
      { intros s5 L' H5 HL'. eexists. split.
        - eapply advance_trans; [exact H1|]. eapply advance_trans; [exact H4 | exact H5].
        - simpl. apply good_cons; [reflexivity | simpl; lia |]. simpl.
          eapply good_weaken;
            [eapply good_app; [exact HL | exact HL' | lia] | lia | lia]. }
      destruct (ev_type item);
        try (apply post_ret; split; [reflexivity|];
             apply (Hdone s4 []); [apply quiet_advance, quiet_refl | apply good_nil]).
      destruct (res_frames processResult) as [frames|].
      - apply post_emit. intros s5 H5 _. split; [reflexivity|].
        apply (Hdone s5 _ H5).
        apply good_cons; [reflexivity | simpl; lia | apply good_nil].
      - apply post_ret. split; [reflexivity|].
        apply (Hdone s4 []); [apply quiet_advance, quiet_refl | apply good_nil]. }
    assert (Hq : quiet s1 s3) by (eapply quiet_trans; eauto).
    apply post_bind.
    destruct (summaryOf (findById (ev_id item) updatedItem)) as [[|c rest]|];
      apply post_emit; intros s4 H4 _;
      (eapply Hfinish;
       [ eapply advance_trans;
         [apply quiet_advance; exact Hq | exact H4]
       | simpl; apply good_cons; [reflexivity | simpl; lia | apply good_nil] ]).
Qed.

Lemma forEachIndexed_post : forall n l i s,
  i + length l <= n -> 0 < n ->
  post (forEachIndexed (processItem env caseId n) i l) s
       (fun r s' => r = Ok tt
                    /\ exists L, advance L s s' /\ good (itemProgress i n) 15 L).
Proof.
  intros n l. induction l as [|x l IH]; intros i s Hlen Hn; simpl.
  - apply post_ret. split; [reflexivity|]. exists [].
    split; [apply quiet_advance, quiet_refl | apply good_nil].
  - simpl in Hlen. apply post_bind.
    eapply post_conseq; [apply processItem_post|].
    intros r s1 [-> (L1 & H1 & G1)].
    eapply post_conseq; [apply (IH (S i)); lia|].
    intros r s2 [-> (L2 & H2 & G2)]. split; [reflexivity|].
    exists (L1 ++ L2). split; [eapply advance_trans; eauto|].
    replace (i + 1) with (S i) in G1 by lia.
    eapply good_app; [exact G1 | exact G2 |].
    split; [apply itemProgress_mono; lia|].
    apply (itemProgress_range (S i) n); lia.
Qed.

Lemma quiet_collectSummary : forall e, keeps quiet (collectSummary env caseId e).
Proof. intros. unfold collectSummary. quiet_auto. Qed.

Lemma total_collectSummary : forall e, total (collectSummary env caseId e).
Proof. intros. unfold collectSummary. total_auto. Qed.

End Orchestrator.

(** *** More outcome rules *)

Lemma post_getEvidenceByCase : forall caseId s (Q : result _ -> State -> Prop),
  Q (Ok (evidenceOf caseId s)) s -> post (getEvidenceByCase caseId) s Q.
Proof.
  intros caseId s Q H r s' E. unfold getEvidenceByCase, bind, getDb, ret in E.
  injection E as <- <-. exact H.
Qed.

Lemma post_uuidv4 : forall s (Q : result string -> State -> Prop),
  (forall s1, quiet s s1 -> nextUuid s1 = S (nextUuid s) ->
              Q (Ok (uuidOf (nextUuid s))) s1) ->
  post uuidv4 s Q.
Proof.
  intros s Q H r s' E. injection E as <- <-. apply H; [|reflexivity].
  unfold quiet, sameTables; simpl. repeat split; auto.
Qed.

Lemma post_insertOrReplaceAnalysis : forall caseId a s (Q : result unit -> State -> Prop),
  (forall s1,
     emitted s1 = emitted s -> nextUuid s1 = nextUuid s ->
     cases (db s1) = cases (db s) ->
     case_analysis (db s1)
     = removeAnalysis caseId (case_analysis (db s)) ++ [mkAnalysisRow caseId a] ->
     Q (Ok tt) s1) ->
  post (insertOrReplaceAnalysis caseId a) s Q.
Proof.
  intros caseId a s Q H r s' E.
  unfold insertOrReplaceAnalysis, bind, getDb, putDb in E.
  injection E as <- <-. apply H; reflexivity.
Qed.

Lemma post_setCaseStatus : forall caseId st s (Q : result unit -> State -> Prop),
  (forall s1,
     emitted s1 = emitted s -> nextUuid s1 = nextUuid s ->
     cases (db s1) = withStatus caseId st (cases (db s)) ->
     case_analysis (db s1) = case_analysis (db s) ->
     Q (Ok tt) s1) ->
  post (setCaseStatus caseId st) s Q.
Proof.
  intros caseId st s Q H r s' E.
  unfold setCaseStatus, bind, getDb, putDb in E.
  injection E as <- <-. apply H; reflexivity.
Qed.

Lemma mapM_length : forall A B (f : A -> M B) l s ys s',
  mapM f l s = (Ok ys, s') -> length ys = length l.
Proof.
  intros A B f l. induction l as [|x l IH]; intros s ys s' E; simpl in E.
  - injection E as <- _. reflexivity.
  - unfold bind in E. destruct (f x s) as [[y|e] s1]; [|discriminate].
    destruct (mapM f l s1) as [[zs|e] s2] eqn:E2; [|discriminate].
    injection E as <- _. simpl. f_equal. eapply IH; eauto.
Qed.

Lemma post_quiet_total_eq : forall A (m : M A) s (Q : result A -> State -> Prop),
  keeps quiet m -> total m ->
  (forall a s1, m s = (Ok a, s1) -> quiet s s1 -> Q (Ok a) s1) ->
  post m s Q.
Proof.
  intros A m s Q Hk Ht H r s' E. destruct (Ht s) as (a & s1 & E1).
  rewrite E1 in E. injection E as <- <-. apply H; [exact E1|]. eapply Hk; eauto.
Qed.

(** Entities built from fresh uuids carry identifiers minted during the
    call, which throws at a [null] element and only there. *)
Lemma mapM_minted : forall A B property (f : string -> A -> B) (l : list (option A)) s,
  post (mapM (fun x => id <- uuidv4 ;; a <- element x property ;; ret (f id a)) l) s
       (fun r s' =>
          quiet s s'
          /\ match r with
             | Ok ys =>
                 Forall (fun y => exists k a, nextUuid s <= k < nextUuid s'
                                              /\ y = f (uuidOf k) a) ys
             | Throw e => In None l /\ e = nullProperty property
             end).
Proof.
  intros A B property f l. induction l as [|x l IH]; intros s; simpl.
  - apply post_ret. split; [apply quiet_refl | constructor].
  - apply post_bind, post_bind, post_uuidv4. intros s1 H1 U1.
    destruct x as [a|]; simpl.
    + apply post_bind, post_ret, post_ret. apply post_bind.
      eapply post_conseq; [apply IH|].
      intros r s2 (H2 & Hr).
      assert (U2 : nextUuid s1 <= nextUuid s2) by apply H2.
      destruct r as [ys|e].
      * apply post_ret. split; [eapply quiet_trans; eauto|].
        constructor.
        -- exists (nextUuid s), a. split; [lia | reflexivity].
        -- eapply Forall_impl; [|exact Hr]. intros y (k & b & Hk & ->).
           exists k, b. split; [lia | reflexivity].
      * destruct Hr as [Hin ->]. split; [eapply quiet_trans; eauto|].
        split; [now right | reflexivity].
    + apply post_bind, post_throw. split; [exact H1|].
      split; [now left | reflexivity].
Qed.

(** The same for a value that may be no array. *)
Lemma mapArrayish_minted : forall A B expr property (f : string -> A -> B) v s,
  post (mapArrayish expr
          (fun x => id <- uuidv4 ;; a <- element x property ;; ret (f id a)) v) s
       (fun r s' =>
          quiet s s'
          /\ match r with
             | Ok ys =>
                 Forall (fun y => exists k a, nextUuid s <= k < nextUuid s'
                                              /\ y = f (uuidOf k) a) ys
             | Throw e => misshapen expr property v e
             end).
Proof.
  intros A B expr property f v s. destruct v as [items|]; simpl.
  - apply mapM_minted.
  - apply post_throw. split; [apply quiet_refl | reflexivity].
Qed.

Lemma minted_weaken : forall lo hi lo' hi' ids,
  Forall (minted lo hi) ids -> lo' <= lo -> hi <= hi' -> Forall (minted lo' hi') ids.
Proof.
  intros lo hi lo' hi' ids H Hlo Hhi.
  eapply Forall_impl; [|exact H]. intros id (k & Hk & ->). exists k. split; [lia|reflexivity].
Qed.

Lemma insertByLikelihood_In : forall x y l,
  In y (insertByLikelihood x l) -> y = x \/ In y l.
Proof.
  intros x y l. induction l as [|z l IH]; simpl.
  - intros [<-|[]]; auto.
  - destruct (Qle_bool (likelihood z) (likelihood x)); simpl.
    + intros [<-|H]; auto.
    + intros [<-|H]; auto. destruct (IH H); auto.
Qed.

Lemma sortByLikelihood_In : forall y l, In y (sortByLikelihood l) -> In y l.
Proof.
  intros y l. induction l as [|x l IH]; simpl; [auto|].
  intros H. apply insertByLikelihood_In in H as [->|H]; auto.
Qed.

Section Rendering.

Variable env : Env.
Variable caseId : string.

(** Rendering keeps the scenarios' identifiers and never throws. *)
Lemma rendered_post : forall top s,
  post (mapM (fun scenario =>
                recon <- generateReconstruction env caseId scenario "from doorway"
                           MostLikely (narrative scenario) ;;
                ret (pushReconstruction scenario (ri_id recon), recon))
             top) s
       (fun r s' =>
          quiet s s'
          /\ exists rendered, r = Ok rendered
               /\ map (fun x => sc_id (fst x)) rendered = map sc_id top).
Proof.
  intros top. induction top as [|sc top IH]; intros s; simpl.
  - apply post_ret. split; [apply quiet_refl|]. now exists [].
  - apply post_bind, post_bind.
    apply post_quiet_total; [auto with pipeline | auto with pipeline|].
    intros recon s1 H1. apply post_ret. apply post_bind.
    eapply post_conseq; [apply IH|].
    intros r s2 (H2 & rendered & -> & Hids). apply post_ret.
    split; [eapply quiet_trans; eauto|].
    eexists. split; [reflexivity|]. simpl. now rewrite Hids.
Qed.

End Rendering.

(** *** Bookkeeping along a run *)

Lemma track_start : forall s, track s 0 s.
Proof.
  intros s. exists []. split; [apply quiet_advance, quiet_refl | apply good_nil].
Qed.

Lemma track_emit : forall s0 v s p s1,
  track s0 v s -> advance [p] s s1 -> status p = StRunning ->
  (v <= progress p)%Z -> (0 <= v)%Z -> track s0 (progress p) s1.
Proof.
  intros s0 v s p s1 (L & HA & HG) Hp Hst Hv H0.
  exists (L ++ [p]). split; [eapply advance_trans; eauto|].
  eapply good_app; [exact HG | | lia].
  apply good_cons; [assumption | lia | apply good_nil].
Qed.

Lemma track_advance : forall s0 v v' s L s1,
  track s0 v s -> advance L s s1 -> good v v' L -> (0 <= v <= v')%Z ->
  track s0 v' s1.
Proof.
  intros s0 v v' s L s1 (L0 & HA & HG) HL HG' Hv.
  exists (L0 ++ L). split; [eapply advance_trans; eauto|].
  eapply good_app; eauto.
Qed.

Lemma track_quiet : forall s0 v s s1, track s0 v s -> quiet s s1 -> track s0 v s1.
Proof.
  intros s0 v s s1 (L & HA & HG) Hq. exists L. split; [|assumption].
  eapply advance_quiet; eauto.
Qed.

Lemma evidenceOf_length : forall caseId s s',
  map ev_caseId (evidence_items (db s')) = map ev_caseId (evidence_items (db s)) ->
  length (evidenceOf caseId s') = length (evidenceOf caseId s).
Proof.
  intros caseId s s'. unfold evidenceOf.
  generalize (evidence_items (db s)) (evidence_items (db s')).
  intros l l'. revert l. induction l' as [|a l' IH]; intros [|b l] H;
    simpl in *; try discriminate; [reflexivity|].
  injection H as Hab Hrest. rewrite Hab.
  destruct (String.eqb (ev_caseId b) caseId); simpl; auto.
Qed.

Lemma track_facts : forall s0 v s,
  track s0 v s ->
  nextUuid s0 <= nextUuid s
  /\ case_analysis (db s) = case_analysis (db s0)
  /\ cases (db s) = cases (db s0)
  /\ map ev_caseId (evidence_items (db s)) = map ev_caseId (evidence_items (db s0))
  /\ exists pre, emitted s = emitted s0 ++ pre /\ good 0 v pre.
Proof.
  intros s0 v s (L & [E (A & C & V & U)] & G). repeat split; auto. now exists L.
Qed.

Ltac emit_step Ht s :=
  apply post_bind, post_emit;
  let Ha := fresh "Ha" in
  let Hu := fresh "Hu" in
  intros s Ha Hu;
  let Ht' := fresh "Ht" in
  assert (Ht' := track_emit _ _ _ _ _ Ht Ha eq_refl ltac:(simpl; lia) ltac:(lia));
  cbn [progress running] in Ht'; clear Ht; rename Ht' into Ht.

Ltac quiet_step_eq Ht a s Hq E :=
  apply post_bind;
  apply post_quiet_total_eq; [auto with pipeline | auto with pipeline |];
  intros a s E Hq;
  let Ht' := fresh "Ht" in
  assert (Ht' := track_quiet _ _ _ _ Ht Hq); clear Ht; rename Ht' into Ht.

(** A throw of the [try] block after a good stretch of events. *)
Lemma body_fails : forall env caseId s0 v s e,
  track s0 v s -> (v <= 80)%Z -> failureCause env caseId s0 e ->
  bodyPost env caseId s0 (Throw e) s.
Proof.
  intros env caseId s0 v s e Ht Hv Hcause.
  destruct (track_facts _ _ _ Ht) as (U & A & C & _ & pre & E & G).
  split; [exact U|]. repeat split; auto.
  exists pre. split; [exact E|]. eapply good_weaken; eauto; lia.
Qed.

Ltac uuid_facts :=
  repeat match goal with
         | H : quiet _ _ |- _ => destruct H as [_ (_ & _ & _ & ?)]
         | H : advance _ _ _ |- _ => destruct H as [_ (_ & _ & _ & ?)]
         end.

Section Run.

Variable env : Env.
Variable caseId : string.

Lemma runBody_post : forall s0, post (runBody env caseId) s0 (bodyPost env caseId s0).
Proof.
  intros s0. unfold runBody.
  assert (Ht := track_start s0).
  emit_step Ht s1.
  apply post_bind, post_getEvidenceByCase.
  assert (Hev : length (evidenceOf caseId s1) = length (evidenceOf caseId s0)).
  { apply evidenceOf_length. apply (track_facts _ _ _ Ht). }
  apply post_bind.
  destruct (length (evidenceOf caseId s1) =? 0) eqn:Hnone.
  { (* no evidence *)
    apply post_throw. apply Nat.eqb_eq in Hnone.
    eapply body_fails; [exact Ht | lia |].
    left. split; [reflexivity|]. apply length_zero_iff_nil. lia. }
  apply Nat.eqb_neq in Hnone. apply post_ret.
  assert (Hsome : evidenceOf caseId s0 <> []).
  { intros Hnil. rewrite Hnil in Hev. simpl in Hev. lia. }
  (* the evidence loop *)
  apply post_bind.
  eapply post_conseq;
    [apply (forEachIndexed_post env caseId (length (evidenceOf caseId s1))); simpl; lia|].
  intros r s2 [-> (Lloop & Hloop & Gloop)].
  rewrite itemProgress_zero in Gloop.
  assert (Ht1 := track_advance _ _ _ _ _ _ Ht Hloop Gloop ltac:(lia)).
  clear Ht. rename Ht1 into Ht.
  emit_step Ht s3.
  apply post_bind, post_getEvidenceByCase.
  (* summaries *)
  apply post_bind. intros r s4 Esum.
  destruct (total_mapM _ _ (collectSummary env caseId) (evidenceOf caseId s3)
              (total_collectSummary env caseId) s3) as (evidenceSummaries & s4' & Esum').
  rewrite Esum' in Esum. injection Esum as <- <-.
  assert (Hq3 : quiet s3 s4').
  { eapply (keeps_mapM quiet quiet_refl quiet_trans); [|exact Esum'].
    apply quiet_collectSummary. }
  assert (Hlen3 : length evidenceSummaries = length (evidenceOf caseId s0)).
  { rewrite (mapM_length _ _ _ _ _ _ _ Esum').
    apply evidenceOf_length. apply (track_facts _ _ _ Ht). }
  assert (Ht3 := track_quiet _ _ _ _ Ht Hq3). clear Ht. rename Ht3 into Ht.
  apply post_bind.
  destruct (length evidenceSummaries =? 0) eqn:Hnone'.
  { apply Nat.eqb_eq in Hnone'. exfalso. apply Hsome.
    apply length_zero_iff_nil. lia. }
  apply post_ret.
  emit_step Ht s5.
  (* fusion *)
  apply post_bind, post_tryCatch. intros rf s6 Efuse.
  assert (Hq5 : quiet s5 s6) by (eapply quiet_fuseEvidence; eauto).
  assert (Ht5 := track_quiet _ _ _ _ Ht Hq5). clear Ht. rename Ht5 into Ht.
  destruct rf as [fusionResult|m].
  2:{ apply post_throw.
      eapply body_fails; [exact Ht | lia |].
      right. left. split; [exact Hsome|]. exists evidenceSummaries, s5, s6, m.
      repeat split; auto. intros ->. discriminate Hnone'. }
  emit_step Ht s7.
  (* timeline *)
  apply post_bind.
  eapply post_conseq;
    [apply (mapM_minted _ _ "label" (fun id t =>
              mkTimelineEvent id caseId (fe_label t) (fe_description t)
                (fe_startTime t) (fe_endTime t) (fe_confidence t)
                (fe_supportingEvidenceIds t)))|].
  intros r s8 (Hq7 & Htl).
  assert (Ht7 := track_quiet _ _ _ _ Ht Hq7). clear Ht. rename Ht7 into Ht.
  destruct r as [tl|e].
  2:{ (* a null event *)
      destruct Htl as [Hnull ->].
      eapply body_fails; [exact Ht | lia |].
      right. right. left. split; [exact Hsome|].
      exists evidenceSummaries, s5, s6, fusionResult. repeat split; auto. }
  assert (Htl' : Forall (minted (nextUuid s7) (nextUuid s8)) (map te_id tl)).
  { clear - Htl.
    induction Htl as [|y ys (k & a & Hk & ->) _ IH]; simpl; constructor; auto.
    now exists k. }
  clear Htl. rename Htl' into Htl.
  assert (Hlo7 : nextUuid s0 <= nextUuid s7) by (uuid_facts; lia).
  emit_step Ht s9.
  quiet_step_eq Ht contradictionResult s10 Hq9 Edetect.
  emit_step Ht s11.
  apply post_bind.
  eapply post_conseq;
    [apply (mapArrayish_minted _ _ "contradictionResult.contradictions" "description"
              (fun id c =>
                 mkContradiction id caseId (ci_description c) (ci_involvedEvidenceIds c)
                   (ci_involvedWitnesses c) (ci_severity c)))|].
  intros r s11b (Hq11 & Hcts).
  assert (Ht11 := track_quiet _ _ _ _ Ht Hq11). clear Ht. rename Ht11 into Ht.
  destruct r as [cts|e].
  2:{ (* contradictions of the wrong shape *)
      eapply body_fails; [exact Ht | lia |].
      right. right. right. left. split; [exact Hsome|].
      do 6 eexists. split; [exact Edetect | exact Hcts]. }
  clear Hcts.
  emit_step Ht s12.
  emit_step Ht s13.
  quiet_step_eq Ht scenarioResult s14 Hq14 Escenarios.
  emit_step Ht s15.
  apply post_bind.
  eapply post_conseq;
    [apply (mapArrayish_minted _ _ "scenarioResult.scenarios" "name"
              (fun id sc =>
                 mkScenario id caseId (si_name sc) (si_likelihood sc) (si_narrative sc)
                   (si_supportingEvidenceIds sc) (si_conflictingEvidenceIds sc) []
                   (Js.orElse (scenarioReasoning sc)
                      "Scenario derived from evidence analysis.")
                   (Js.orEmpty (si_keyFindings sc))
                   (Js.orEmpty (si_supportingEvidence sc))
                   (Js.orEmpty (si_conflictingEvidence sc))))|].
  intros r s16 (Hq16 & Hsc).
  assert (Ht16 := track_quiet _ _ _ _ Ht Hq16). clear Ht. rename Ht16 into Ht.
  destruct r as [scs|e].
  2:{ (* scenarios of the wrong shape *)
      eapply body_fails; [exact Ht | lia |].
      right. right. right. right. split; [exact Hsome|].
      do 6 eexists. split; [exact Escenarios | exact Hsc]. }
  assert (Hsc' : Forall (minted (nextUuid s15) (nextUuid s16)) (map sc_id scs)).
  { clear - Hsc.
    induction Hsc as [|y ys (k & a & Hk & ->) _ IH]; simpl; constructor; auto.
    now exists k. }
  clear Hsc. rename Hsc' into Hsc.
  assert (Hlo16 : nextUuid s0 <= nextUuid s15) by (uuid_facts; lia).
  emit_step Ht s17.
  (* reconstructions *)
  apply post_bind.
  eapply post_conseq; [apply rendered_post|].
  intros r s18 (Hq18 & rendered & -> & Hrendered).
  assert (Ht18 := track_quiet _ _ _ _ Ht Hq18). clear Ht. rename Ht18 into Ht.
  emit_step Ht s19.
  emit_step Ht s20.
  (* assembly *)
  apply post_bind, post_insertOrReplaceAnalysis. intros s22 E21 U21 C21 A21.
  apply post_bind, post_setCaseStatus. intros s23 E22 U22 C22 A22.
  apply post_bind, post_emit. intros s24 (E23 & A23 & C23 & _ & _) U23.
  apply post_ret.
  destruct (track_facts _ _ _ Ht) as (U & A & C & _ & pre & E & G).
  assert (Hhi7 : nextUuid s8 <= nextUuid s24) by (uuid_facts; lia).
  assert (Hhi16 : nextUuid s16 <= nextUuid s24) by (uuid_facts; lia).
  split; [lia|]. repeat split.
  - exists pre. split; [|exact G].
    rewrite E23, E22, E21, E. now rewrite app_assoc.
  - rewrite A23, A22, A21, A. reflexivity.
  - rewrite C23, C22, C21, C. reflexivity.
  - unfold analysisIds. cbn [timeline scenarios]. apply Forall_app. split.
    + eapply minted_weaken with (lo := nextUuid s7) (hi := nextUuid s8); auto.
    + rewrite map_app, map_map, Hrendered, <- map_app, firstn_skipn.
      eapply minted_weaken with (lo := nextUuid s15) (hi := nextUuid s16); auto.
      apply Forall_forall. intros id Hid.
      apply in_map_iff in Hid as (sc & <- & Hin).
      apply sortByLikelihood_In in Hin.
      rewrite Forall_forall in Hsc. apply Hsc. now apply in_map.
  - exact Hsome.
Qed.

Lemma run_post : forall s0, post (run env caseId) s0 (runPost env caseId s0).
Proof.
  intros s0. unfold run. apply post_tryCatch.
  eapply post_conseq; [apply runBody_post|].
  intros [a|e] s1 [U H]; [split; assumption|].
  destruct H as ((pre & E & G) & A & C & Hcause).
  apply post_bind, post_emit. intros s2 (E2 & A2 & C2 & _ & _) U2.
  apply post_bind, post_setCaseStatus. intros s3 E3 U3 C3 A3.
  apply post_throw. split; [lia|]. repeat split.
  - exists pre. split; [|exact G]. rewrite E3, E2, E. now rewrite app_assoc.
  - congruence.
  - rewrite C3, C2, C. reflexivity.
  - exact Hcause.
Qed.

Lemma run_outcome : forall s0 r s',
  run env caseId s0 = (r, s') -> runPost env caseId s0 r s'.
Proof. intros s0 r s' E. exact (run_post s0 r s' E). Qed.

End Run.

(* ================================================================== *)
(** ** Evidence processing *)

Lemma updated_rows : forall id dv (l : list EvidenceItem) e,
  In e (map (fun e => if String.eqb (ev_id e) id then setDerived e dv else e) l) ->
  ev_id e = id -> derived e = Some dv.
Proof.
  intros id dv l e Hin Hid. apply in_map_iff in Hin as (e0 & He & _).
  destruct (String.eqb_spec (ev_id e0) id) as [Heq|Hne].
  - now subst e.
  - subst e. contradiction.
Qed.

#[local] Opaque maxChars.

Ltac crunch :=
  unfold processEvidence, when, processVideo, processAudio, processText,
    processImage, extractFrames, transcribeAudio, summarizeEvidence,
    updateEvidenceDerived, tryCatch, bind, await, tick, throw, ret, getDb, putDb.

Ltac stored_derived :=
  simpl; split; [reflexivity|];
  intros e Hin Hid;
  apply (updated_rows _ _ _ _ Hin) in Hid;
  unfold derivedSummary, derivedTags; rewrite Hid; simpl;
  repeat split; reflexivity.

(** An item-level failure ends in the failure summary and its error tags,
    and leaves [results.summary] unset. *)
Lemma item_failure_degrades : forall env ev path s kind msg,
  Failure env s ev path kind msg -> kind <> FrameFailed ->
  let out := processEvidence env ev path s in
  (exists res, fst out = Ok res /\ res_summary res = None)
  /\ forall e, In e (evidence_items (db (snd out))) -> ev_id e = ev_id ev ->
       derivedSummary e = Some (failureSummary kind msg)
       /\ exists tags, derivedTags e = Some tags /\ errorTagged tags = true.
Proof.
  intros env ev path s kind msg HF Hkind out. subst out.
  destruct HF as [Hx | m Hx Ht Hf | m Hx Ht Hr | data m Hx Ht Hr Htr
                  | m Hx Ht Hr | raw Hx Ht Hr Hb | raw m Hx Ht Hr Hb Hs
                  | m Hx Ht Hr | data m Hx Ht Hr Hs
                  | file files data m Hx Ht Hf framePath Hfx Hfr Hs];
    try congruence; clear Hkind.
  - crunch. rewrite Hx. simpl. split; [eexists; split; reflexivity|].
    intros e Hin Hid. apply (updated_rows _ _ _ _ Hin) in Hid.
    unfold derivedSummary, derivedTags. rewrite Hid. simpl.
    split; [reflexivity|]. eexists. split; reflexivity.
  - crunch. rewrite Hx, Ht. simpl. rewrite Hf. simpl.
    split; [eexists; split; reflexivity|].
    intros e Hin Hid. apply (updated_rows _ _ _ _ Hin) in Hid.
    unfold derivedSummary, derivedTags. rewrite Hid. simpl.
    split; [reflexivity|]. eexists. split; reflexivity.
  - crunch. rewrite Hx, Ht. simpl. rewrite Hr. simpl.
    split; [eexists; split; reflexivity|].
    intros e Hin Hid. apply (updated_rows _ _ _ _ Hin) in Hid.
    unfold derivedSummary, derivedTags. rewrite Hid. simpl.
    split; [reflexivity|]. eexists. split; reflexivity.
  - crunch. rewrite Hx, Ht. simpl. rewrite Hr. simpl. rewrite Htr. simpl.
    split; [eexists; split; reflexivity|].
    intros e Hin Hid. apply (updated_rows _ _ _ _ Hin) in Hid.
    unfold derivedSummary, derivedTags. rewrite Hid. simpl.
    split; [reflexivity|]. eexists. split; reflexivity.
  - unfold readText in Hr.
    destruct (readFileSync env path) as [raw|m0] eqn:Hr0; [discriminate|].
    crunch. rewrite Hx. destruct Ht as [Ht|Ht]; rewrite Ht; simpl;
      rewrite Hr0, Hr; simpl;
      (split; [eexists; split; reflexivity|]);
      intros e Hin Hid; apply (updated_rows _ _ _ _ Hin) in Hid;
      unfold derivedSummary, derivedTags; rewrite Hid; simpl;
      (split; [reflexivity|]); eexists; split; reflexivity.
  - unfold readText in Hr.
    crunch. rewrite Hx.
    destruct Ht as [Ht|Ht]; rewrite Ht; simpl;
      (destruct (readFileSync env path) as [raw0|m0];
       [injection Hr as -> | rewrite Hr]); simpl; rewrite Hb; simpl;
      (split; [eexists; split; reflexivity|]);
      intros e Hin Hid; apply (updated_rows _ _ _ _ Hin) in Hid;
      unfold derivedSummary, derivedTags; rewrite Hid; simpl;
      (split; [reflexivity|]); eexists; split; reflexivity.
  - unfold readText in Hr. unfold textContentOf in Hs. simpl in Hs.
    crunch. rewrite Hx.
    destruct Ht as [Ht|Ht]; rewrite Ht; simpl;
      (destruct (readFileSync env path) as [raw0|m0];
       [injection Hr as -> | rewrite Hr]); simpl; rewrite Hb; simpl;
      rewrite Hs; simpl;
      (split; [eexists; split; reflexivity|]);
      intros e Hin Hid; apply (updated_rows _ _ _ _ Hin) in Hid;
      unfold derivedSummary, derivedTags; rewrite Hid; simpl;
      (split; [reflexivity|]); eexists; split; reflexivity.
  - crunch. rewrite Hx, Ht. simpl. rewrite Hr. simpl.
    split; [eexists; split; reflexivity|].
    intros e Hin Hid. apply (updated_rows _ _ _ _ Hin) in Hid.
    unfold derivedSummary, derivedTags. rewrite Hid. simpl.
    split; [reflexivity|]. eexists. split; reflexivity.
  - crunch. rewrite Hx, Ht. simpl. rewrite Hr. simpl. rewrite Hs. simpl.
    split; [eexists; split; reflexivity|].
    intros e Hin Hid. apply (updated_rows _ _ _ _ Hin) in Hid.
    unfold derivedSummary, derivedTags. rewrite Hid. simpl.
    split; [reflexivity|]. eexists. split; reflexivity.
Qed.




(* ================================================================== *)
(** ** Properties of a run *)

Lemma nondecreasing_nth : forall L i j a b,
  nondecreasing L -> i < j -> nth_error L i = Some a -> nth_error L j = Some b ->
  (progress a <= progress b)%Z.
Proof.
  intros L i j a b H. revert i j a b.
  induction H as [|x l Hs IH Hall]; intros i j a b Hij Ha Hb.
  - destruct i; discriminate.
  - destruct j as [|j]; [lia|]. simpl in Hb.
    destruct i as [|i]; simpl in Ha.
    + injection Ha as <-. rewrite Forall_forall in Hall.
      apply Hall. eapply nth_error_In; eauto.
    + apply (IH i j); auto; lia.
Qed.

(** C4, as stated, fails.  When the fusion call is rejected the events carry
    the progress values 0, 0, 15, 16, 30 and then the error event with
    progress 0. *)
Lemma failed_run_progress_drops :
  ~ nondecreasing
      (emitted (snd (run Cases.fusionDown Demo.caseId (Demo.start [Demo.statement])))).
Proof.
  intros H.
  set (L := emitted (snd (run Cases.fusionDown Demo.caseId
                            (Demo.start [Demo.statement])))) in H.
  pose (d := errorEvent "").
  assert (H4 : nth_error L 4 = Some (nth 4 L d)) by (vm_compute; reflexivity).
  assert (H5 : nth_error L 5 = Some (nth 5 L d)) by (vm_compute; reflexivity).
  pose proof (nondecreasing_nth L 4 5 _ _ H ltac:(lia) H4 H5) as Hle.
  assert (P4 : progress (nth 4 L d) = 30%Z) by (vm_compute; reflexivity).
  assert (P5 : progress (nth 5 L d) = 0%Z) by (vm_compute; reflexivity).
  rewrite P4, P5 in Hle. lia.
Qed.

(** C4 (amended).  The events of one run are a stretch of running events
    with non-decreasing progress between 0 and 98, followed by exactly one
    terminal event: a completed event with progress 100 when the run
    returns, or an error event with progress 0 when it throws. *)
Theorem run_progress_shape : forall env caseId s r s',
  run env caseId s = (r, s') ->
  exists pre final,
    emitted s' = emitted s ++ pre ++ [final]
    /\ Forall (fun p => status p = StRunning /\ (0 <= progress p <= 98)%Z) pre
    /\ nondecreasing pre
    /\ ((status final = StCompleted /\ progress final = 100%Z
         /\ nondecreasing (pre ++ [final]) /\ exists a, r = Ok a)
        \/ (status final = StError /\ progress final = 0%Z /\ exists e, r = Throw e)).
Proof.
  intros env caseId s r s' E.
  destruct (run_outcome env caseId s r s' E) as [_ H].
  destruct r as [a|e].
  - destruct H as ((pre & Hev & [Hall Hs]) & _).
    exists pre, completedEvent. repeat split; auto.
    left. repeat split; [|now exists a].
    apply nondecreasing_app; [assumption | repeat constructor |].
    intros p q Hp [<-|[]]. rewrite Forall_forall in Hall.
    destruct (Hall p Hp) as [_ ?]. simpl. lia.
  - destruct H as ((pre & Hev & G) & _).
    destruct (good_weaken 0 80 0 98 pre G ltac:(lia) ltac:(lia)) as [Hall Hs].
    exists pre, (errorEvent e). repeat split; auto.
    right. repeat split. now exists e.
Qed.

Lemma run_progress_shape_witness :
  exists pre final,
    emitted (snd (run Cases.fusionDown Demo.caseId (Demo.start [Demo.statement])))
    = emitted (Demo.start [Demo.statement]) ++ pre ++ [final]
    /\ Forall (fun p => status p = StRunning /\ (0 <= progress p <= 98)%Z) pre
    /\ nondecreasing pre
    /\ ((status final = StCompleted /\ progress final = 100%Z
         /\ nondecreasing (pre ++ [final])
         /\ exists a, fst (run Cases.fusionDown Demo.caseId
                             (Demo.start [Demo.statement])) = Ok a)
        \/ (status final = StError /\ progress final = 0%Z
            /\ exists e, fst (run Cases.fusionDown Demo.caseId
                                (Demo.start [Demo.statement])) = Throw e)).
Proof.
  apply (run_progress_shape Cases.fusionDown Demo.caseId (Demo.start [Demo.statement])).
  apply surjective_pairing.
Defined.

Lemma fuseEvidence_answers : forall env summaries s m s',
  summaries <> [] ->
  (forall t es, fusionAnswers (fusionReply env t es)) ->
  fuseEvidence env summaries s <> (Throw m, s').
Proof.
  intros env summaries s m s' Hne Hans E. unfold fuseEvidence in E.
  destruct summaries as [|x rest]; [congruence|]. simpl in E.
  unfold bind, record, tick in E. simpl in E.
  specialize (Hans (clock s) (x :: rest)).
  destruct (fusionReply env (clock s) (x :: rest)); simpl in Hans;
    try contradiction; discriminate.
Qed.

Lemma misshapen_array : forall A expr property (v : Arrayish A) e,
  misshapen expr property v e -> arrayOfObjects v -> False.
Proof.
  intros A expr property [items|] e H Hv; simpl in *; [|exact Hv].
  destruct H as [Hin _]. exact (Hv Hin).
Qed.

Lemma fuseEvidence_shaped : forall env summaries s fusionResult s',
  (forall t es, timelineShaped (fusionReply env t es)) ->
  fuseEvidence env summaries s = (Ok fusionResult, s') ->
  ~ In None (fr_timeline fusionResult).
Proof.
  intros env summaries s fusionResult s' Hshape E. unfold fuseEvidence in E.
  destruct summaries as [|x rest]; [discriminate|].
  cbn [length Nat.eqb] in E. unfold bind, record, tick in E. cbn [clock] in E.
  specialize (Hshape (clock s) (x :: rest)).
  destruct (fusionReply env (clock s) (x :: rest)) as [msg|text|text msg|text parsed];
    try discriminate.
  - injection E as <- _. cbn [fr_timeline]. intros [H|[]]. discriminate H.
  - injection E as <- _. cbn [fr_timeline]. simpl in Hshape.
    destruct (fj_timeline parsed); [exact Hshape | intros []].
Qed.

Lemma detectContradictions_shaped : forall env tl es ws s contradictionResult s',
  (forall t tl es ws, contradictionsShaped (contradictionReply env t tl es ws)) ->
  detectContradictions env tl es ws s = (Ok contradictionResult, s') ->
  arrayOfObjects (cr_contradictions contradictionResult).
Proof.
  intros env tl es ws s contradictionResult s' Hshape E.
  unfold detectContradictions, bind, record, tick in E. cbn [clock] in E.
  specialize (Hshape (clock s) tl es ws).
  destruct (contradictionReply env (clock s) tl es ws) as [msg|text|text msg|text parsed];
    injection E as <- _; cbn [cr_contradictions]; try (intros []).
  simpl in Hshape. destruct (cj_contradictions parsed); [exact Hshape | intros []].
Qed.

Lemma generateScenarios_shaped : forall env wm tl cs s scenarioResult s',
  (forall t wm tl cs, scenariosShaped (scenarioReply env t wm tl cs)) ->
  generateScenarios env wm tl cs s = (Ok scenarioResult, s') ->
  arrayOfObjects (sr_scenarios scenarioResult).
Proof.
  intros env wm tl cs s scenarioResult s' Hshape E.
  unfold generateScenarios, bind, record, tick in E. cbn [clock] in E.
  specialize (Hshape (clock s) wm tl cs).
  destruct (scenarioReply env (clock s) wm tl cs) as [msg|text|text msg|text parsed];
    injection E as <- _; cbn [sr_scenarios]; try (intros []).
  simpl in Hshape. destruct (sj_scenarios parsed); [exact Hshape | intros []].
Qed.

(** With evidence in the case, a fusion call that answers and parsed replies
    of the expected shape, the run returns. *)
Lemma run_returns : forall env caseId s,
  evidenceOf caseId s <> [] ->
  (forall t es, fusionAnswers (fusionReply env t es)) ->
  wellShaped env ->
  exists a s', run env caseId s = (Ok a, s').
Proof.
  intros env caseId s Hev Hans (Htimeline & Hcontradictions & Hscenarios).
  destruct (run env caseId s) as [[a|e] s'] eqn:E; [now exists a, s'|].
  destruct (run_outcome env caseId s _ _ E) as [_ (_ & _ & _ & Hcause)].
  exfalso.
  destruct Hcause
    as [[_ Hnil]
       | [(_ & summaries & s1 & s2 & m & Hne & Hfuse & _)
         | [(_ & summaries & s1 & s2 & fusionResult & Hfuse & Hnull & _)
           | [(_ & tl & es & ws & s1 & s2 & contradictionResult & Hdetect & Hbad)
             | (_ & wm & tl & cs & s1 & s2 & scenarioResult & Hgen & Hbad)]]]].
  - contradiction.
  - eapply fuseEvidence_answers; eauto.
  - eapply fuseEvidence_shaped; eauto.
  - eapply misshapen_array; [exact Hbad|].
    eapply detectContradictions_shaped; eauto.
  - eapply misshapen_array; [exact Hbad|].
    eapply generateScenarios_shaped; eauto.
Qed.

(** The worlds of the concrete cases whose replies have the expected
    shape. *)
Lemma full_wellShaped : wellShaped Cases.full.
Proof.
  repeat split; intros; simpl; intros H;
    repeat (destruct H as [H|H]; [discriminate H|]); exact H.
Qed.

Lemma emptyTimeline_wellShaped : wellShaped Cases.emptyTimeline.
Proof. repeat split; intros; simpl; auto. Qed.

(** C6.  A rejected contradiction call yields the empty contradiction list
    and a rejected scenario call the empty scenario list, both as ordinary
    return values; and whenever the case has evidence and the fusion call
    answers, the run returns an analysis, whether the contradiction and
    scenario calls are rejected, answer without JSON, answer with JSON that
    does not parse, or answer with arrays of objects (as does the fusion
    call when its timeline is an array). *)
Theorem enrichment_failures_are_absorbed : forall env,
  (forall tl es ws s msg,
     contradictionReply env (clock s) tl es ws = CallFails msg ->
     exists s', detectContradictions env tl es ws s
                = (Ok (mkContradictionResult (Elements [])
                         (Some "Failed to analyze contradictions.")), s'))
  /\ (forall wm tl cs s msg,
        scenarioReply env (clock s) wm tl cs = CallFails msg ->
        exists s', generateScenarios env wm tl cs s
                   = (Ok (mkScenarioResult (Elements [])
                            (Some "Failed to generate scenarios.")), s'))
  /\ (forall caseId s,
        evidenceOf caseId s <> [] ->
        (forall t es, fusionAnswers (fusionReply env t es)) ->
        wellShaped env ->
        exists a s', run env caseId s = (Ok a, s')).
Proof.
  intros env. repeat split.
  - intros tl es ws s msg H.
    unfold detectContradictions, bind, record, tick. simpl. rewrite H.
    eexists. reflexivity.
  - intros wm tl cs s msg H.
    unfold generateScenarios, bind, record, tick. simpl. rewrite H.
    eexists. reflexivity.
  - apply run_returns.
Qed.

Lemma enrichment_failures_are_absorbed_witness :
  (exists s',
     detectContradictions Cases.emptyTimeline [] [] [] (Demo.start [Demo.statement])
     = (Ok (mkContradictionResult (Elements [])
              (Some "Failed to analyze contradictions.")), s'))
  /\ (exists s',
        generateScenarios Cases.emptyTimeline "" [] [] (Demo.start [Demo.statement])
        = (Ok (mkScenarioResult (Elements []) (Some "Failed to generate scenarios.")), s'))
  /\ (exists a s',
        run Cases.emptyTimeline Demo.caseId (Demo.start [Demo.statement]) = (Ok a, s')).
Proof.
  destruct (enrichment_failures_are_absorbed Cases.emptyTimeline) as (Hc & Hs & Hrun).
  split; [|split].
  - apply (Hc [] [] [] (Demo.start [Demo.statement]) "503 Service Unavailable").
    reflexivity.
  - apply (Hs "" [] [] (Demo.start [Demo.statement]) "503 Service Unavailable").
    reflexivity.
  - apply Hrun.
    + discriminate.
    + intros t es. exact I.
    + exact emptyTimeline_wellShaped.
Defined.

Lemma withStatus_sets : forall caseId st rows c,
  In c (withStatus caseId st rows) -> c_id c = caseId -> c_status c = st.
Proof.
  intros caseId st rows c Hin Hid. unfold withStatus in Hin.
  apply in_map_iff in Hin as (c0 & Hc & _).
  destruct (String.eqb_spec (c_id c0) caseId) as [Heq|Hne].
  - now subst c.
  - subst c. contradiction.
Qed.



Lemma filter_removed : forall caseId rows,
  filter (fun r => String.eqb (ar_caseId r) caseId) (removeAnalysis caseId rows) = [].
Proof.
  intros caseId rows. unfold removeAnalysis.
  induction rows as [|r rows IH]; simpl; [reflexivity|].
  destruct (String.eqb (ar_caseId r) caseId) eqn:Er; simpl; [exact IH|].
  now rewrite Er.
Qed.

Lemma filter_others : forall caseId c rows,
  c <> caseId ->
  filter (fun r => String.eqb (ar_caseId r) c) (removeAnalysis caseId rows)
  = filter (fun r => String.eqb (ar_caseId r) c) rows.
Proof.
  intros caseId c rows Hc. unfold removeAnalysis.
  induction rows as [|r rows IH]; simpl; [reflexivity|].
  destruct (String.eqb_spec (ar_caseId r) caseId) as [Er|Er]; simpl.
  - destruct (String.eqb_spec (ar_caseId r) c) as [Ec|Ec]; [congruence | exact IH].
  - destruct (String.eqb (ar_caseId r) c); [now rewrite IH | exact IH].
Qed.

Lemma analysesOf_replaced : forall caseId a rows s',
  case_analysis (db s') = removeAnalysis caseId rows ++ [mkAnalysisRow caseId a] ->
  analysesOf caseId s' = [a]
  /\ forall c, c <> caseId ->
       analysesOf c s'
       = map ar_analysis (filter (fun r => String.eqb (ar_caseId r) c) rows).
Proof.
  intros caseId a rows s' H. unfold analysesOf. rewrite H. split.
  - rewrite filter_app, filter_removed. simpl. now rewrite String.eqb_refl.
  - intros c Hc. rewrite filter_app, filter_others by assumption. simpl.
    destruct (String.eqb_spec caseId c) as [Heq|_]; [congruence|].
    now rewrite app_nil_r.
Qed.

Lemma heatmapSegments_length : forall tl cs, length (heatmapSegments tl cs) = 10.
Proof. intros. unfold heatmapSegments. rewrite length_map, length_seq. reflexivity. Qed.

(** C8.  The heatmap has exactly ten segments for every timeline and every
    list of contradictions, the empty timeline included; so has the heatmap
    of the analysis that a completed run returns and persists. *)
Theorem heatmap_has_ten_segments :
  (forall tl cs, length (heatmapSegments tl cs) = 10)
  /\ length (heatmapSegments [] []) = 10
  /\ forall env caseId s a s',
       run env caseId s = (Ok a, s') ->
       length (heatmap_segments a) = 10 /\ analysesOf caseId s' = [a].
Proof.
  split; [apply heatmapSegments_length|]. split; [reflexivity|].
  intros env caseId s a s' E.
  destruct (run_outcome env caseId s _ _ E) as [_ (_ & A & _ & _ & Hh & _)].
  split.
  - rewrite Hh. apply heatmapSegments_length.
  - eapply analysesOf_replaced; eauto.
Qed.

Lemma heatmap_has_ten_segments_witness :
  exists a s',
    run Cases.emptyTimeline Demo.caseId (Demo.start [Demo.statement]) = (Ok a, s')
    /\ timeline a = []
    /\ length (heatmap_segments a) = 10 /\ analysesOf Demo.caseId s' = [a].
Proof.
  destruct (run Cases.emptyTimeline Demo.caseId (Demo.start [Demo.statement]))
    as [[a|e] s'] eqn:E.
  - exists a, s'. split; [reflexivity|]. split.
    + vm_compute in E. injection E as <- _. reflexivity.
    + exact (proj2 (proj2 heatmap_has_ten_segments) _ _ _ _ _ E).
  - exfalso. vm_compute in E. discriminate E.
Defined.

(** *** The uuid supply never repeats *)

Lemma to_uint_nonnil : forall n, Nat.to_uint n <> Decimal.Nil.
Proof.
  intros n. rewrite <- (Unsigned.of_to n) at 1. rewrite Unsigned.to_of.
  apply DecimalFacts.unorm_nonnil.
Qed.

Lemma showNat_inj : forall a b, Js.showNat a = Js.showNat b -> a = b.
Proof.
  intros a b H. unfold Js.showNat in H.
  apply (f_equal NilZero.uint_of_string) in H.
  rewrite !NilZero.usu in H by apply to_uint_nonnil.
  injection H as H. now apply Unsigned.to_uint_inj.
Qed.

Lemma uuidOf_inj : forall a b, uuidOf a = uuidOf b -> a = b.
Proof.
  intros a b H. unfold uuidOf in H. simpl in H. injection H as H.
  now apply showNat_inj.
Qed.

Lemma minted_disjoint : forall lo hi lo' hi' id,
  minted lo hi id -> minted lo' hi' id -> hi <= lo' -> False.
Proof.
  intros lo hi lo' hi' id (k & Hk & ->) (k' & Hk' & E) Hle.
  apply uuidOf_inj in E. lia.
Qed.

(** C9.  A second completed run for the same case, started after the first
    with the same [case_analysis] table, leaves exactly one row for the
    case, holding the new analysis; the rows of other cases are untouched;
    and no timeline or scenario identifier of the first analysis occurs in
    the second. *)
Theorem rerun_replaces_analysis : forall env1 env2 caseId s0 a1 s1 s1' a2 s2,
  run env1 caseId s0 = (Ok a1, s1) ->
  case_analysis (db s1') = case_analysis (db s1) ->
  nextUuid s1 <= nextUuid s1' ->
  run env2 caseId s1' = (Ok a2, s2) ->
  analysesOf caseId s1 = [a1]
  /\ analysesOf caseId s2 = [a2]
  /\ (forall c, c <> caseId -> analysesOf c s2 = analysesOf c s1)
  /\ (forall id, In id (analysisIds a1) -> ~ In id (analysisIds a2)).
Proof.
  intros env1 env2 caseId s0 a1 s1 s1' a2 s2 E1 Hrows Huuid E2.
  destruct (run_outcome env1 caseId s0 _ _ E1) as [U1 (_ & A1 & _ & I1 & _)].
  destruct (run_outcome env2 caseId s1' _ _ E2) as [U2 (_ & A2 & _ & I2 & _)].
  destruct (analysesOf_replaced _ _ _ _ A1) as [R1 _].
  destruct (analysesOf_replaced _ _ _ _ A2) as [R2 O2].
  repeat split; auto.
  - intros c Hc. rewrite (O2 c Hc), Hrows. reflexivity.
  - intros id H1 H2. rewrite Forall_forall in I1, I2.
    eapply minted_disjoint; [apply (I1 id H1) | apply (I2 id H2) | exact Huuid].
Qed.

Lemma rerun_replaces_analysis_witness :
  exists a1 s1 a2 s2,
    run Cases.full Demo.caseId (Demo.start [Demo.clip; Demo.statement]) = (Ok a1, s1)
    /\ run Cases.full Demo.caseId s1 = (Ok a2, s2)
    /\ analysesOf Demo.caseId s2 = [a2]
    /\ (forall id, In id (analysisIds a1) -> ~ In id (analysisIds a2)).
Proof.
  destruct (run Cases.full Demo.caseId (Demo.start [Demo.clip; Demo.statement]))
    as [[a1|e1] s1] eqn:E1; [|exfalso; vm_compute in E1; discriminate E1].
  destruct (run Cases.full Demo.caseId s1) as [[a2|e2] s2] eqn:E2.
  - exists a1, s1, a2, s2.
    destruct (rerun_replaces_analysis _ _ _ _ _ _ s1 _ _ E1 eq_refl (le_n _) E2)
      as (_ & R2 & _ & D).
    repeat split; assumption.
  - exfalso.
    assert (Hev : evidenceOf Demo.caseId s1 <> []).
    { destruct (run_outcome _ _ _ _ _ E1) as [_ (_ & _ & _ & _ & _ & H0)].
      intros Hnil. apply (f_equal (@length _)) in Hnil.
      rewrite (evidenceOf_length Demo.caseId (Demo.start [Demo.clip; Demo.statement]) s1)
        in Hnil; [discriminate Hnil|].
      vm_compute in E1. injection E1 as _ <-. reflexivity. }
    destruct (run_returns Cases.full Demo.caseId s1 Hev (fun _ _ => I)
                full_wellShaped) as (a & s' & E).
    rewrite E in E2. discriminate E2.
Defined.

Lemma filter_all : forall A (l : list A), filter (fun _ => true) l = l.
Proof. intros A l. induction l as [|x l IH]; simpl; [reflexivity | now rewrite IH]. Qed.

Lemma segment_score : forall tl cs seg,
  In seg (heatmapSegments tl cs) ->
  contradictionScore seg = (inject_Z (Z.of_nat (length cs)) * (2 # 10))%Q.
Proof.
  intros tl cs seg Hin. unfold heatmapSegments in Hin.
  apply in_map_iff in Hin as (i & <- & _). simpl. now rewrite filter_all.
Qed.

(** C10.  Every segment of a heatmap carries the same contradiction score,
    0.2 times the number of all contradictions, which is above 1 as soon as
    there are more than five; this holds for the ten segments of the
    analysis of every completed run. *)
Theorem heatmap_contradiction_score_is_global :
  (forall tl cs seg,
     In seg (heatmapSegments tl cs) ->
     contradictionScore seg = (inject_Z (Z.of_nat (length cs)) * (2 # 10))%Q
     /\ (5 < length cs -> (1 < contradictionScore seg)%Q))
  /\ forall env caseId s a s',
       run env caseId s = (Ok a, s') ->
       length (heatmap_segments a) = 10
       /\ Forall (fun seg =>
                    contradictionScore seg
                    = (inject_Z (Z.of_nat (length (contradictions a))) * (2 # 10))%Q)
                 (heatmap_segments a).
Proof.
  split.
  - intros tl cs seg Hin. rewrite (segment_score _ _ _ Hin). split; [reflexivity|].
    intros Hlen. unfold Qlt, Qmult, inject_Z. simpl. lia.
  - intros env caseId s a s' E.
    destruct (run_outcome env caseId s _ _ E) as [_ (_ & _ & _ & _ & Hh & _)].
    rewrite Hh. split; [apply heatmapSegments_length|].
    apply Forall_forall. intros seg Hin. eapply segment_score; eauto.
Qed.

Lemma heatmap_contradiction_score_is_global_witness :
  exists a s',
    run Cases.full Demo.caseId (Demo.start [Demo.clip; Demo.statement]) = (Ok a, s')
    /\ length (contradictions a) = 6
    /\ length (heatmap_segments a) = 10
    /\ Forall (fun seg => contradictionScore seg = (inject_Z 6 * (2 # 10))%Q
                          /\ (1 < contradictionScore seg)%Q)
              (heatmap_segments a).
Proof.
  destruct (run Cases.full Demo.caseId (Demo.start [Demo.clip; Demo.statement]))
    as [[a|e] s'] eqn:E; [|exfalso; vm_compute in E; discriminate E].
  exists a, s'.
  destruct heatmap_contradiction_score_is_global as [Hscore Hrun].
  destruct (Hrun _ _ _ _ _ E) as [Hlen Hall].
  assert (H6 : length (contradictions a) = 6).
  { vm_compute in E. injection E as <- _. reflexivity. }
  assert (Hh : heatmap_segments a = heatmapSegments (timeline a) (contradictions a)).
  { vm_compute in E. injection E as <- _. reflexivity. }
  repeat split; auto.
  apply Forall_forall. intros seg Hin. rewrite Hh in Hin.
  destruct (Hscore _ _ _ Hin) as [Hs Hgt]. rewrite H6 in Hs, Hgt.
  split; [exact Hs | apply Hgt; lia].
Defined.

(* ================================================================== *)
(** ** Behaviour on concrete cases *)

(** C1: a case with one evidence item whose fusion reply parses but holds
    no timeline event.  The run completes and persists an analysis whose
    timeline is empty. *)
Theorem completed_run_with_empty_timeline :
  exists a s',
    run Cases.emptyTimeline Demo.caseId (Demo.start [Demo.statement]) = (Ok a, s')
    /\ evidenceOf Demo.caseId (Demo.start [Demo.statement]) = [Demo.statement]
    /\ timeline a = []
    /\ analysesOf Demo.caseId s' = [a]
    /\ cases (db s') = [mkCaseRow Demo.caseId Completed].
Proof.
  destruct (run Cases.emptyTimeline Demo.caseId (Demo.start [Demo.statement]))
    as [[a|e] s'] eqn:E; [|exfalso; vm_compute in E; discriminate E].
  exists a, s'. split; [reflexivity|]. split; [reflexivity|].
  destruct (run_outcome _ _ _ _ _ E) as [_ (_ & A & C & _)].
  repeat split.
  - vm_compute in E. injection E as <- _. reflexivity.
  - eapply analysesOf_replaced; eauto.
  - rewrite C. reflexivity.
Qed.

(** C5: a case with one freshly uploaded text item.  The run summarizes it
    and stores the summary, yet the contradiction call receives no witness
    statement: the statements are filtered from the list loaded before the
    evidence loop. *)
Theorem witness_statements_miss_current_run :
  let s0 := Demo.start [Demo.statement] in
  let out := run Cases.emptyTimeline Demo.caseId s0 in
  map (fun e => (ev_type e, derivedSummary e)) (evidenceOf Demo.caseId s0)
  = [(Text, None)]
  /\ map (fun e => (ev_type e, derivedSummary e)) (evidenceOf Demo.caseId (snd out))
     = [(Text, Some "Witness saw a man leave at 9pm.")]
  /\ exists fs tl es wm tl' cs,
       calls (snd out) = [FuseCall fs; DetectCall tl es []; ScenarioCall wm tl' cs].
Proof.
  intros s0 out. split; [reflexivity|]. split; [vm_compute; reflexivity|].
  vm_compute. repeat eexists.
Qed.
